(** * Nexus AI Gateway: routing and resilience engine

    A shallow embedding of the gateway's [index.ts] (circuit breaker, health
    scorer, selector, streaming fail-over loop, in-flight accounting and
    message validation) together with the adapters' constructors, and the
    properties of the specification proved or refuted on it.

    Conventions.  JavaScript numbers that hold counters, indices and
    millisecond timestamps are integers ([Z], [nat] for list positions);
    scores, weights and delays are exact rationals ([Q]): the exact-arithmetic
    reading of the IEEE expressions of the source.  No property of the
    selector, of the loops or of the endpoint below depends on the value of a
    score.  [Date.now()] and [Math.random()] are explicit arguments.  Mutation
    of a tracked service is explicit state passing: a function that mutates
    its argument returns the new record. *)

From Stdlib Require Import ZArith QArith Qminmax Qpower Lia Lqa String Ascii List Bool.
From stdpp Require Import base list gmap strings.
Import ListNotations.

Local Open Scope Z_scope.

(* ================================================================== *)
(** * Part I: the program *)
(* ================================================================== *)

(** ** 1. Configuration ([CONFIG]) *)

Module CONFIG.
Definition errorPenaltyDurationMs : Z := 30000.
Definition minRequestsForScoring : Z := 3.
Module circuitBreaker.
Definition failureThreshold : Z := 3.
Definition resetTimeoutMs : Z := 60000.
Definition halfOpenMaxAttempts : Z := 1.
End circuitBreaker.
Module backoff.
Definition initialDelayMs : Q := 100.
Definition maxDelayMs : Q := 2000.
Definition multiplier : Q := 2.
End backoff.
End CONFIG.

(** ** 2. Types ([types.ts] and the interfaces of [index.ts]) *)

Inductive ProviderType := groq | gemini | openrouter | cerebras.

Record AIService := mkService {
  name : string;
  provider : ProviderType
}.

Record ServiceMetrics := mkMetrics {
  totalRequests : Z;
  successCount : Z;
  failCount : Z;
  totalLatencyMs : Z;
  lastError : option string;
  lastErrorTime : option Z
}.

Inductive CircuitState := CLOSED | OPEN | HALF_OPEN.

Record CircuitBreakerState := mkBreaker {
  state : CircuitState;
  failures : Z;
  lastFailureTime : option Z;
  halfOpenAttempts : Z
}.

Record EnhancedTrackedService := mkTracked {
  service : AIService;
  metrics : ServiceMetrics;
  circuitBreaker : CircuitBreakerState;
  enabled : bool
}.

Definition createInitialMetrics : ServiceMetrics :=
  mkMetrics 0 0 0 0 None None.

Definition createInitialCircuitBreaker : CircuitBreakerState :=
  mkBreaker CLOSED 0 None 0.

(** Field updates of a tracked service ([tracked.circuitBreaker.x = ...],
    [tracked.metrics.x = ...], [target.enabled = ...]). *)
Definition withBreaker (tracked : EnhancedTrackedService) (cb : CircuitBreakerState)
  : EnhancedTrackedService :=
  mkTracked (service tracked) (metrics tracked) cb (enabled tracked).

Definition withMetrics (tracked : EnhancedTrackedService) (m : ServiceMetrics)
  : EnhancedTrackedService :=
  mkTracked (service tracked) m (circuitBreaker tracked) (enabled tracked).

Definition withEnabled (tracked : EnhancedTrackedService) (b : bool)
  : EnhancedTrackedService :=
  mkTracked (service tracked) (metrics tracked) (circuitBreaker tracked) b.

(** JavaScript truthiness of an optional timestamp: [undefined] and [0] are
    falsy ([cb.lastFailureTime && ...], [if (metrics.lastErrorTime)]). *)
Definition truthyTime (t : option Z) : bool :=
  match t with
  | Some v => negb (v =? 0)
  | None => false
  end.

(** ** 3. Circuit breaker *)

(** [isServiceAvailable]: the answer and the (possibly mutated) service. *)
Definition isServiceAvailable (now : Z) (tracked : EnhancedTrackedService)
  : bool * EnhancedTrackedService :=
  let cb := circuitBreaker tracked in
  match state cb with
  | CLOSED => (true, tracked)
  | OPEN =>
      if truthyTime (lastFailureTime cb) &&
         (CONFIG.circuitBreaker.resetTimeoutMs <=? now - default 0 (lastFailureTime cb))
      then (true, withBreaker tracked
                    (mkBreaker HALF_OPEN (failures cb) (lastFailureTime cb) 0))
      else (false, tracked)
  | HALF_OPEN =>
      (halfOpenAttempts cb <? CONFIG.circuitBreaker.halfOpenMaxAttempts, tracked)
  end.

Definition recordSuccess (tracked : EnhancedTrackedService) : EnhancedTrackedService :=
  let cb := circuitBreaker tracked in
  match state cb with
  | HALF_OPEN => withBreaker tracked (mkBreaker CLOSED 0 (lastFailureTime cb) 0)
  | CLOSED =>
      withBreaker tracked
        (mkBreaker CLOSED (Z.max 0 (failures cb - 1)) (lastFailureTime cb)
                   (halfOpenAttempts cb))
  | OPEN => tracked
  end.

Definition recordFailure (now : Z) (tracked : EnhancedTrackedService)
  : EnhancedTrackedService :=
  let cb := circuitBreaker tracked in
  match state cb with
  | HALF_OPEN => withBreaker tracked (mkBreaker OPEN (failures cb) (Some now) 0)
  | CLOSED =>
      let failures' := failures cb + 1 in
      withBreaker tracked
        (mkBreaker
           (if CONFIG.circuitBreaker.failureThreshold <=? failures' then OPEN else CLOSED)
           failures' (Some now) (halfOpenAttempts cb))
  | OPEN =>
      withBreaker tracked
        (mkBreaker OPEN (failures cb) (Some now) (halfOpenAttempts cb))
  end.

(** ** 4. Exponential back-off *)

Definition calculateBackoffDelay (attempt : Z) : Q :=
  let delay :=
    (CONFIG.backoff.initialDelayMs *
     Qpower CONFIG.backoff.multiplier (attempt - 1))%Q in
  Qmin delay CONFIG.backoff.maxDelayMs.

(** ** 5. Adapters' identity ([services/*.ts]) *)

(** [String.prototype.toLowerCase] on the ASCII letters; other bytes are
    left as they are. *)
Definition lowerAscii (c : ascii) : ascii :=
  let n := nat_of_ascii c in
  if ((65 <=? n) && (n <=? 90))%nat then ascii_of_nat (n + 32) else c.

Fixpoint toLowerCase (s : string) : string :=
  match s with
  | EmptyString => EmptyString
  | String c rest => String (lowerAscii c) (toLowerCase rest)
  end.

(** [hay.includes(needle)]. *)
Fixpoint includes (hay needle : string) : bool :=
  String.prefix needle hay ||
  match hay with
  | EmptyString => false
  | String _ rest => includes rest needle
  end.



Definition isEmpty (s : string) : bool :=
  match s with EmptyString => true | _ => false end.








(** ** 6. Health scorer *)

Local Open Scope Q_scope.

Definition priorityBonus (p : ProviderType) : Q :=
  match p with
  | cerebras => 0.15
  | groq => 0.10
  | openrouter => 0.05
  | gemini => 0.00
  end.

(** The [bonus] constant of [calculateHealthScore]. *)
Definition bonus (service : AIService) : Q :=
  let providerName := toLowerCase (name service) in
  if includes providerName "cerebras" then priorityBonus cerebras
  else if includes providerName "groq" then priorityBonus groq
  else if includes providerName "openrouter" then priorityBonus openrouter
  else priorityBonus gemini.

Definition calculateHealthScore (now : Z) (tracked : EnhancedTrackedService) : Q :=
  let m := metrics tracked in
  match state (circuitBreaker tracked) with
  | OPEN => 0
  | HALF_OPEN => 0.1
  | CLOSED =>
      let bonus := bonus (service tracked) in
      if (totalRequests m <? CONFIG.minRequestsForScoring)%Z then 0.5 + bonus
      else
        let successRate := inject_Z (successCount m) / inject_Z (totalRequests m) in
        let avgLatency := inject_Z (totalLatencyMs m) / inject_Z (totalRequests m) in
        let latencyScore := Qmax 0 (1 - avgLatency / 5000) in
        let recentErrorPenalty :=
          if truthyTime (lastErrorTime m) then
            let timeSinceError := (now - default 0%Z (lastErrorTime m))%Z in
            if (timeSinceError <? CONFIG.errorPenaltyDurationMs)%Z
            then 0.3 * (1 - inject_Z timeSinceError
                            / inject_Z CONFIG.errorPenaltyDurationMs)
            else 0
          else 0 in
        Qmax 0 (Qmin 1 (successRate * 0.5 + latencyScore * 0.3 + bonus
                        - recentErrorPenalty))
  end.

(** *** The scorer as the specification words it *)

Definition clamp (x lo hi : Q) : Q := Qmax lo (Qmin hi x).

(** The recent-error penalty when the timestamp is taken into account as
    soon as it exists. *)
Definition penaltyIfExists (now : Z) (m : ServiceMetrics) : Q :=
  match lastErrorTime m with
  | Some t =>
      if (now - t <? 30000)%Z
      then 0.3 * (1 - inject_Z (now - t) / 30000)
      else 0
  | None => 0
  end.

(** The recent-error penalty when a zero timestamp counts as absent. *)
Definition penaltyIfNonZero (now : Z) (m : ServiceMetrics) : Q :=
  match lastErrorTime m with
  | Some t =>
      if (t =? 0)%Z then 0
      else if (now - t <? 30000)%Z
      then 0.3 * (1 - inject_Z (now - t) / 30000)
      else 0
  | None => 0
  end.

Definition healthScoreWith (penalty : Z -> ServiceMetrics -> Q) (B : Q)
    (now : Z) (tracked : EnhancedTrackedService) : Q :=
  let m := metrics tracked in
  match state (circuitBreaker tracked) with
  | OPEN => 0
  | HALF_OPEN => 0.1
  | CLOSED =>
      if (totalRequests m <? 3)%Z then clamp (0.5 + B) 0 1
      else
        clamp (0.5 * (inject_Z (successCount m) / inject_Z (totalRequests m))
               + 0.3 * Qmax 0 (1 - (inject_Z (totalLatencyMs m)
                                    / inject_Z (totalRequests m)) / 5000)
               + B - penalty now m) 0 1
  end.

Local Close Scope Q_scope.

(** ** 7. Selector *)

Inductive RoutingMode := smart | fastest | round_robin.

(** The process-wide variables of [index.ts]. *)
Record Gateway := mkGateway {
  trackedServices : list EnhancedTrackedService;
  roundRobinPointer : nat;
  inFlightRequests : Z;
  isShuttingDown : bool
}.

Definition withServices (gw : Gateway) (services : list EnhancedTrackedService)
  : Gateway :=
  mkGateway services (roundRobinPointer gw) (inFlightRequests gw) (isShuttingDown gw).

Definition withPointer (gw : Gateway) (pointer : nat) : Gateway :=
  mkGateway (trackedServices gw) pointer (inFlightRequests gw) (isShuttingDown gw).

Definition withInFlight (gw : Gateway) (n : Z) : Gateway :=
  mkGateway (trackedServices gw) (roundRobinPointer gw) n (isShuttingDown gw).

(** An entry [{ ts, index }] of [available], and [{ ts, index, score }] of
    [scored]. *)
Record Candidate := mkCandidate { ts : EnhancedTrackedService; index : nat }.
Record Scored := mkScored { candidate : Candidate; score : Q }.

(** [trackedServices.map((ts, index) => ({ ts, index })).filter(...)]: the
    filter's predicate short-circuits, so [isServiceAvailable] runs, and may
    move a breaker to HALF_OPEN, exactly on the entries that are neither
    excluded nor disabled.  The second component is the pool afterwards. *)
Fixpoint availableFrom (excludeIndices : gset nat) (now : Z) (idx : nat)
    (services : list EnhancedTrackedService)
  : list Candidate * list EnhancedTrackedService :=
  match services with
  | [] => ([], [])
  | tracked :: rest =>
      let '(avail, rest') := availableFrom excludeIndices now (S idx) rest in
      if bool_decide (idx ∈ excludeIndices) then (avail, tracked :: rest')
      else if negb (enabled tracked) then (avail, tracked :: rest')
      else
        let '(ok, tracked') := isServiceAvailable now tracked in
        (if ok then mkCandidate tracked' idx :: avail else avail, tracked' :: rest')
  end.

(** [Array.prototype.sort] with a comparator is stable; [before y x] says
    that the comparator puts [y] strictly before [x]. *)
Fixpoint insertBy {A : Type} (before : A -> A -> bool) (x : A) (l : list A)
  : list A :=
  match l with
  | [] => [x]
  | y :: l' => if before y x then y :: insertBy before x l' else x :: y :: l'
  end.

Definition sortBy {A : Type} (before : A -> A -> bool) (l : list A) : list A :=
  foldr (insertBy before) [] l.

(** The comparators [(a, b) => a.index - b.index] and
    [(a, b) => b.score - a.score]. *)
Definition byIndex (a b : Candidate) : bool := (index a <? index b)%nat.
Definition byScoreDesc (a b : Scored) : bool := negb (Qle_bool (score a) (score b)).

Definition weight (s : Scored) : Q := Qmax 0.1 (score s).

(** The weighted draw: [random -= weight; if (random <= 0) return s]. *)
Fixpoint draw (random : Q) (scored : list Scored) : option Scored :=
  match scored with
  | [] => None
  | s :: rest =>
      let random' := (random - weight s)%Q in
      if Qle_bool random' 0 then Some s else draw random' rest
  end.

(** [getNextService].  The source returns the tracked object and its callers
    recover the position with [trackedServices.indexOf]; the objects of the
    pool are pairwise distinct, so that position is the entry's [index],
    which is what is returned here.  [now] is [Date.now()] and [random] is
    [Math.random()]. *)
Definition getNextService (excludeIndices : gset nat) (routingMode : RoutingMode)
    (now : Z) (random : Q) (gw : Gateway) : option nat * Gateway :=
  let '(available, services') :=
    availableFrom excludeIndices now 0 (trackedServices gw) in
  let gw' := withServices gw services' in
  match available with
  | [] => (None, gw')
  | [only] => (Some (index only), gw')
  | _ =>
      match routingMode with
      | round_robin =>
          let sorted := sortBy byIndex available in
          let choice := sorted !! (roundRobinPointer gw mod length sorted)%nat in
          (index <$> choice,
           withPointer gw'
             ((roundRobinPointer gw + 1) mod length (trackedServices gw))%nat)
      | _ =>
          let scored :=
            sortBy byScoreDesc
                   (map (fun c => mkScored c (calculateHealthScore now (ts c)))
                        available) in
          match routingMode with
          | fastest => (index ∘ candidate <$> head scored, gw')
          | _ =>
              let totalScore :=
                fold_left (fun sum s => (sum + weight s)%Q) scored 0%Q in
              match draw (random * totalScore)%Q scored with
              | Some s => (Some (index (candidate s)), gw')
              | None => (index ∘ candidate <$> head scored, gw')
              end
          end
      end
  end.

(** ** 8. Streaming fail-over loop ([ReadableStream.start]) *)

(** How the adapter's generator ends. *)
Inductive GenEnd := GenDone | GenThrow (msg : string).

(** What one turn of the [while] loop meets: clock readings, the random
    draw, what the adapter's generator does, and when the client's
    disconnection becomes visible in [aborted].  A first-token timeout is a
    generator that throws before any chunk. *)
Record IterEnv := mkIterEnv {
  selectNow : Z;                  (* Date.now() inside getNextService *)
  random : Q;                     (* Math.random() *)
  reprobeNow : Z;                 (* Date.now() after the re-probe sleep *)
  startNow : Z;                   (* startTime *)
  chunks : list (string * bool);  (* yielded values; flag: [aborted] is set
                                     when the value is looked at *)
  ending : GenEnd;                (* how the generator ends after them *)
  abortedAtEnd : bool;            (* [aborted] is set when a first result
                                     [done] is looked at *)
  endNow : Z;                     (* Date.now() when the attempt is classified *)
  abortedAfter : bool             (* [aborted] is set when the loop condition
                                     is read next *)
}.

(** What a request does, in order. *)
Inductive Event :=
| Selected (choice : option nat)      (* a call of getNextService *)
| Slept (ms : Q)                      (* await sleep(ms) *)
| Dispatched (idx : nat)              (* totalRequests++, service.chat(...) *)
| Committed (idx : nat)               (* started = true *)
| Metadata (idx : nat)
| Chunk (idx : nat) (content : string)
| Succeeded (idx : nat)               (* successCount++, recordSuccess *)
| Failed (idx : nat) (msg : string)   (* failCount++, recordFailure *)
| ErrorFrame
| DoneFrame.

Record LoopState := mkLoop {
  gateway : Gateway;
  triedIndices : gset nat;
  attemptNumber : Z;
  started : bool;
  aborted : bool;
  exited : bool;          (* a [break] has left the [while] loop *)
  trace : list Event      (* oldest first *)
}.

Definition initialLoop (gw : Gateway) : LoopState :=
  mkLoop gw ∅ 0 false false false [].

(** [trackedServices.some((ts, idx) => !triedIndices.has(idx) &&
    isServiceAvailable(ts))]: stops at the first hit; [enabled] is not
    consulted. *)
Fixpoint someReopened (triedIndices : gset nat) (now : Z) (idx : nat)
    (services : list EnhancedTrackedService)
  : bool * list EnhancedTrackedService :=
  match services with
  | [] => (false, [])
  | tracked :: rest =>
      if bool_decide (idx ∈ triedIndices) then
        let '(found, rest') := someReopened triedIndices now (S idx) rest in
        (found, tracked :: rest')
      else
        let '(ok, tracked') := isServiceAvailable now tracked in
        if ok then (true, tracked' :: rest)
        else
          let '(found, rest') := someReopened triedIndices now (S idx) rest in
          (found, tracked' :: rest')
  end.

(** Updates of the metrics at the end of an attempt. *)
Definition markDispatched (tracked : EnhancedTrackedService) : EnhancedTrackedService :=
  let cb := circuitBreaker tracked in
  let tracked1 :=
    match state cb with
    | HALF_OPEN =>
        withBreaker tracked
          (mkBreaker HALF_OPEN (failures cb) (lastFailureTime cb)
                     (halfOpenAttempts cb + 1))
    | _ => tracked
    end in
  let m := metrics tracked1 in
  withMetrics tracked1
    (mkMetrics (totalRequests m + 1) (successCount m) (failCount m)
               (totalLatencyMs m) (lastError m) (lastErrorTime m)).

Definition markRequested (tracked : EnhancedTrackedService) : EnhancedTrackedService :=
  let m := metrics tracked in
  withMetrics tracked
    (mkMetrics (totalRequests m + 1) (successCount m) (failCount m)
               (totalLatencyMs m) (lastError m) (lastErrorTime m)).

Definition markSuccess (startTime now : Z) (tracked : EnhancedTrackedService)
  : EnhancedTrackedService :=
  let m := metrics tracked in
  recordSuccess
    (withMetrics tracked
       (mkMetrics (totalRequests m) (successCount m + 1) (failCount m)
                  (totalLatencyMs m + (now - startTime)) (lastError m)
                  (lastErrorTime m))).

Definition markFailure (startTime now : Z) (errorMsg : string)
    (tracked : EnhancedTrackedService) : EnhancedTrackedService :=
  let m := metrics tracked in
  recordFailure now
    (withMetrics tracked
       (mkMetrics (totalRequests m) (successCount m) (failCount m + 1)
                  (totalLatencyMs m + (now - startTime)) (Some errorMsg)
                  (Some now))).

Definition updateService (idx : nat)
    (f : EnhancedTrackedService -> EnhancedTrackedService) (gw : Gateway)
  : Gateway :=
  withServices gw (alter f idx (trackedServices gw)).

(** [for await (const chunk of gen)]: the frames emitted, [started] and
    [aborted] afterwards, and the error thrown by the generator if any. *)
Fixpoint forAwait (idx : nat) (started aborted : bool)
    (chunks : list (string * bool)) (ending : GenEnd)
  : list Event * bool * bool * option string :=
  match chunks with
  | [] =>
      match ending with
      | GenDone => ([], started, aborted, None)
      | GenThrow msg => ([], started, aborted, Some msg)
      end
  | (chunk, gone) :: rest =>
      if aborted || gone then ([], started, true, None)
      else if isEmpty chunk then forAwait idx started false rest ending
      else
        let frames :=
          (if started then [] else [Committed idx; Metadata idx])
            ++ [Chunk idx chunk] in
        let '(frames', started', aborted', thrown) :=
          forAwait idx true false rest ending in
        (frames ++ frames', started', aborted', thrown)
  end.

Definition backoffBefore (attemptNumber : Z) : list Event :=
  if 1 <? attemptNumber
  then [Slept (calculateBackoffDelay (attemptNumber - 1))]
  else [].

(** The [catch] block of an attempt: the failure is recorded and the loop is
    left only if the request had started. *)
Definition caught (startTime : Z) (e : IterEnv) (idx : nat) (errorMsg : string)
    (s : LoopState) : LoopState :=
  mkLoop (updateService idx (markFailure startTime (endNow e) errorMsg) (gateway s))
         (triedIndices s) (attemptNumber s) (started s) (aborted s)
         (started s) (trace s ++ [Failed idx errorMsg]).

(** The success recording that precedes a [break]. *)
Definition succeeded (startTime : Z) (e : IterEnv) (idx : nat)
    (frames : list Event) (s : LoopState) : LoopState :=
  mkLoop (updateService idx (markSuccess startTime (endNow e)) (gateway s))
         (triedIndices s) (attemptNumber s) true (aborted s)
         true (trace s ++ frames).

(** The body of the loop from [attemptNumber++] on, for the selected
    position [idx]. *)
Definition attempt (e : IterEnv) (idx : nat) (s : LoopState) : LoopState :=
  let attemptNumber' := attemptNumber s + 1 in
  let tried' := {[idx]} ∪ triedIndices s in
  let startTime := startNow e in
  let gw1 := updateService idx markDispatched (gateway s) in
  let pre := trace s ++ backoffBefore attemptNumber' ++ [Dispatched idx] in
  let s1 := mkLoop gw1 tried' attemptNumber' (started s) (aborted s) false pre in
  match chunks e with
  | [] =>
      match ending e with
      | GenThrow msg => caught startTime e idx msg s1
      | GenDone =>
          if aborted s || abortedAtEnd e
          then mkLoop gw1 tried' attemptNumber' (started s) true true pre
          else succeeded startTime e idx
                 [Committed idx; Succeeded idx; Metadata idx] s1
      end
  | (first, gone) :: rest =>
      if aborted s || gone
      then mkLoop gw1 tried' attemptNumber' (started s) true true pre
      else
        let frames0 :=
          if isEmpty first then []
          else [Committed idx; Metadata idx; Chunk idx first] in
        let started0 := started s || negb (isEmpty first) in
        let '(frames, started1, aborted1, thrown) :=
          forAwait idx started0 false rest (ending e) in
        let s2 := mkLoop gw1 tried' attemptNumber' started1 aborted1 false
                         (pre ++ frames0 ++ frames) in
        match thrown with
        | Some msg => caught startTime e idx msg s2
        | None =>
            if started1 then succeeded startTime e idx [Succeeded idx] s2
            else s2
        end
  end.

(** One turn of [while (triedIndices.size < trackedServices.length &&
    !aborted)]. *)
Definition iteration (routingMode : RoutingMode) (e : IterEnv) (s : LoopState)
  : LoopState :=
  let '(choice, gw1) :=
    getNextService (triedIndices s) routingMode (selectNow e) (random e)
                   (gateway s) in
  let s1 := mkLoop gw1 (triedIndices s) (attemptNumber s) (started s)
                   (aborted s) false (trace s ++ [Selected choice]) in
  let s2 :=
    match choice with
    | None =>
        if 0 <? attemptNumber s then
          let '(reopened, services') :=
            someReopened (triedIndices s) (reprobeNow e) 0 (trackedServices gw1) in
          mkLoop (withServices gw1 services') (triedIndices s) (attemptNumber s)
                 (started s) (aborted s) (negb reopened)
                 (trace s1 ++ [Slept (calculateBackoffDelay (attemptNumber s))])
        else
          mkLoop gw1 (triedIndices s) (attemptNumber s) (started s) (aborted s)
                 true (trace s1)
    | Some idx => attempt e idx s1
    end in
  if exited s2 then s2
  else mkLoop (gateway s2) (triedIndices s2) (attemptNumber s2) (started s2)
              (aborted s2 || abortedAfter e) false (trace s2).

Definition loopCondition (s : LoopState) : bool :=
  (size (triedIndices s) <? length (trackedServices (gateway s)))%nat
  && negb (aborted s).

(** The loop is over: a [break] was taken or its condition is false. *)
Definition finished (s : LoopState) : bool :=
  exited s || negb (loopCondition s).

(** The loop, run for as many turns as the script describes. *)
Fixpoint runLoop (routingMode : RoutingMode) (envs : list IterEnv)
    (s : LoopState) : LoopState :=
  match envs with
  | [] => s
  | e :: envs' =>
      if finished s then s else runLoop routingMode envs' (iteration routingMode e s)
  end.

(** After the loop: the error frame if nothing started and the client is
    still there, then the [DONE] sentinel. *)
Definition closeStream (s : LoopState) : LoopState :=
  mkLoop (gateway s) (triedIndices s) (attemptNumber s) (started s) (aborted s)
         (exited s)
         (trace s ++ (if negb (started s) && negb (aborted s) then [ErrorFrame] else [])
                  ++ [DoneFrame]).

(** ** 9. Non-streaming fail-over loop *)

Inductive Completion := Completed (idx : nat) | Exhausted | Pending.

(** [while (triedIndices.size < trackedServices.length)] of the
    [!streamRequested] branch.  The adapter's call resolves when the script's
    [ending] is [GenDone] and throws otherwise. *)
Fixpoint completeLoop (routingMode : RoutingMode) (envs : list IterEnv)
    (s : LoopState) : LoopState * Completion :=
  if negb (size (triedIndices s) <? length (trackedServices (gateway s)))%nat
  then (s, Exhausted)
  else
    match envs with
    | [] => (s, Pending)
    | e :: envs' =>
        let '(choice, gw1) :=
          getNextService (triedIndices s) routingMode (selectNow e) (random e)
                         (gateway s) in
        match choice with
        | None =>
            (mkLoop gw1 (triedIndices s) (attemptNumber s) (started s)
                    (aborted s) true (trace s ++ [Selected None]), Exhausted)
        | Some idx =>
            let attemptNumber' := attemptNumber s + 1 in
            let s1 :=
              mkLoop (updateService idx markRequested gw1)
                     ({[idx]} ∪ triedIndices s) attemptNumber' (started s)
                     (aborted s) false
                     (trace s ++ [Selected (Some idx)]
                              ++ backoffBefore attemptNumber'
                              ++ [Dispatched idx]) in
            match ending e with
            | GenDone =>
                (succeeded (startNow e) e idx [Succeeded idx] s1, Completed idx)
            | GenThrow msg =>
                completeLoop routingMode envs'
                  (mkLoop (updateService idx
                             (markFailure (startNow e) (endNow e) msg)
                             (gateway s1))
                          (triedIndices s1) (attemptNumber s1) (started s1)
                          (aborted s1) false (trace s1 ++ [Failed idx msg]))
            end
        end
    end.

(** ** 10. Message validation *)

(** A parsed JSON value, or [undefined] for a missing property. *)
#[warnings="-register-all"] Inductive JSValue :=
| JUndefined
| JNull
| JBool (b : bool)
| JNumber (n : Q)
| JString (s : string)
| JArray (items : list JSValue)
| JObject (fields : list (string * JSValue)).

(** [v.key] for the keys this program reads ([messages], [stream], [role],
    [content], [type], [text], [image_url]): arrays and primitives have none
    of them. *)
Definition getProp (v : JSValue) (key : string) : JSValue :=
  match v with
  | JObject fields =>
      match find (fun kv => String.eqb (fst kv) key) fields with
      | Some kv => snd kv
      | None => JUndefined
      end
  | _ => JUndefined
  end.

(** [v && typeof v === 'object']. *)
Definition isObjectLike (v : JSValue) : bool :=
  match v with
  | JArray _ | JObject _ => true
  | _ => false
  end.

Definition isString (v : JSValue) : bool :=
  match v with JString _ => true | _ => false end.

(** [v === s] for a string constant [s]. *)
Definition strictEquals (v : JSValue) (s : string) : bool :=
  match v with JString s' => String.eqb s' s | _ => false end.

Definition validRoles : list string := ["system"; "user"; "assistant"]%string.

(** The callback of [msg.content.every]. *)
Definition isValidPart (part : JSValue) : bool :=
  if negb (isObjectLike part) then false
  else if strictEquals (getProp part "type") "text"
          && isString (getProp part "text") then true
  else if strictEquals (getProp part "type") "image_url"
          && isObjectLike (getProp part "image_url") then true
  else false.

Definition isValidMessage (m : JSValue) : bool :=
  if negb (isObjectLike m) then false
  else if negb (existsb (strictEquals (getProp m "role")) validRoles) then false
  else
    match getProp m "content" with
    | JString _ => true
    | JArray parts => forallb isValidPart parts
    | _ => false
    end.

(** [Array.isArray(messages) && messages.every(isValidMessage)]. *)
Definition messagesAccepted (messages : JSValue) : bool :=
  match messages with
  | JArray items => forallb isValidMessage items
  | _ => false
  end.

(** *** Valid messages as the specification words them *)

Definition IsRole (role : string) : Prop :=
  role = "system"%string \/ role = "user"%string \/ role = "assistant"%string.

Inductive ContentPart : JSValue -> Prop :=
| TextPart (fields : list (string * JSValue)) (text : string) :
    getProp (JObject fields) "type" = JString "text" ->
    getProp (JObject fields) "text" = JString text ->
    ContentPart (JObject fields)
| ImagePart (fields : list (string * JSValue)) :
    getProp (JObject fields) "type" = JString "image_url" ->
    isObjectLike (getProp (JObject fields) "image_url") = true ->
    ContentPart (JObject fields).

Inductive ChatMessage : JSValue -> Prop :=
| TextMessage (fields : list (string * JSValue)) (role text : string) :
    getProp (JObject fields) "role" = JString role -> IsRole role ->
    getProp (JObject fields) "content" = JString text ->
    ChatMessage (JObject fields)
| PartsMessage (fields : list (string * JSValue)) (role : string)
      (parts : list JSValue) :
    getProp (JObject fields) "role" = JString role -> IsRole role ->
    getProp (JObject fields) "content" = JArray parts ->
    Forall ContentPart parts ->
    ChatMessage (JObject fields).

(** ** 11. The chat endpoint ([fetch] on [POST /v1/chat/completions]) *)

(** [await req.json()]: a parse error or a value. *)
Inductive BodyResult := BodyInvalid | BodyJson (v : JSValue).

Record Request := mkRequest {
  authorization : option string;      (* the Authorization header *)
  routingModeHeader : option string;  (* the X-Routing-Mode header *)
  body : BodyResult;
  script : list IterEnv;              (* what the fail-over loop meets *)
  cancelled : bool                    (* the consumer cancels the stream *)
}.

Record Response := mkResponse {
  status : Z;
  retryAfter : option string;         (* the Retry-After header *)
  frames : list Event                 (* what the fail-over loop did *)
}.

Definition parseRoutingMode (header : option string) : RoutingMode :=
  let value :=
    toLowerCase (match header with
                 | Some h => if isEmpty h then "smart" else h
                 | None => "smart"
                 end) in
  if String.eqb value "fastest" then fastest
  else if String.eqb value "round-robin" then round_robin
  else smart.

(** [body.stream !== false]. *)
Definition streamRequested (b : JSValue) : bool :=
  match getProp b "stream" with JBool false => false | _ => true end.

(** [decrementInFlight], with the request's [hasDecrementedInFlight]. *)
Definition decrementInFlight (st : bool * Gateway) : bool * Gateway :=
  let '(hasDecrementedInFlight, gw) := st in
  if hasDecrementedInFlight then st
  else (true, withInFlight gw (inFlightRequests gw - 1)).

(** [fetch] on a [POST /v1/chat/completions] request.  [masterKey] is
    [CONFIG.masterKey].  The answer is [None] while the non-streaming branch
    is still waiting for an adapter that the script does not describe. *)
Definition fetchChat (masterKey : string) (req : Request) (gw : Gateway)
  : option Response * Gateway :=
  if isShuttingDown gw then (Some (mkResponse 503 (Some "30"%string) []), gw)
  else if negb (isEmpty masterKey)
          && negb (bool_decide (authorization req = Some ("Bearer " +:+ masterKey)))
  then (Some (mkResponse 401 None []), gw)
  else
    let gw1 := withInFlight gw (inFlightRequests gw + 1) in
    let internalError :=
      (Some (mkResponse 500 None []), (decrementInFlight (false, gw1)).2) in
    match body req with
    | BodyInvalid => internalError
    | BodyJson JNull => internalError
    | BodyJson b =>
        let messages := getProp b "messages" in
        if negb (messagesAccepted messages)
        then (Some (mkResponse 400 None []), withInFlight gw1 (inFlightRequests gw1 - 1))
        else
          let routingMode := parseRoutingMode (routingModeHeader req) in
          if negb (streamRequested b) then
            match completeLoop routingMode (script req) (initialLoop gw1) with
            | (s, Completed _) => (Some (mkResponse 200 None (trace s)), gateway s)
            | (s, Exhausted) => (Some (mkResponse 502 None (trace s)), gateway s)
            | (s, Pending) => (None, gateway s)
            end
          else
            let s := runLoop routingMode (script req) (initialLoop gw1) in
            let s' := if finished s then closeStream s else s in
            let afterCancel :=
              if cancelled req then decrementInFlight (false, gateway s')
              else (false, gateway s') in
            let afterStart :=
              if finished s then decrementInFlight afterCancel else afterCancel in
            (Some (mkResponse 200 None (trace s')), afterStart.2)
    end.

(** ** 12. Observations on a run *)

(** [k] consecutive selections with the same exclusions, at the given clock
    readings. *)
Fixpoint selectMany (excludeIndices : gset nat) (routingMode : RoutingMode)
    (nows : list Z) (gw : Gateway) : list (option nat) * Gateway :=
  match nows with
  | [] => ([], gw)
  | now :: rest =>
      let '(choice, gw1) := getNextService excludeIndices routingMode now 0%Q gw in
      let '(choices, gw2) := selectMany excludeIndices routingMode rest gw1 in
      (choice :: choices, gw2)
  end.

Definition dispatchOf (e : Event) : option nat :=
  match e with Dispatched idx => Some idx | _ => None end.

Definition successOf (e : Event) : option nat :=
  match e with Succeeded idx => Some idx | _ => None end.

(** The positions a request dispatched to, and those whose success it
    recorded, in order. *)
Definition dispatched (tr : list Event) : list nat := omap dispatchOf tr.
Definition successes (tr : list Event) : list nat := omap successOf tr.

Definition isCommit (e : Event) : bool :=
  match e with Committed _ => true | _ => false end.

Definition isSelected (e : Event) : bool :=
  match e with Selected _ => true | _ => false end.

Definition isDispatched (e : Event) : bool :=
  match e with Dispatched _ => true | _ => false end.

Definition isSlept (e : Event) : bool :=
  match e with Slept _ => true | _ => false end.

Definition selectorCalls (tr : list Event) : nat := length (List.filter isSelected tr).
Definition sleeps (tr : list Event) : nat := length (List.filter isSlept tr).

(** Whether a trace has no selector call and no dispatch after a commit;
    [committed] tells whether a commit precedes the trace. *)
Fixpoint quietAfterCommit (committed : bool) (tr : list Event) : bool :=
  match tr with
  | [] => true
  | e :: rest =>
      negb (committed && (isSelected e || isDispatched e))
      && quietAfterCommit (committed || isCommit e) rest
  end.

(** Events other than a selector call or a dispatch. *)
Definition isQuiet (e : Event) : bool := negb (isSelected e || isDispatched e).

(** The events of the streaming itself. *)
Definition isFrame (e : Event) : bool :=
  match e with
  | Committed _ | Metadata _ | Chunk _ _ => true
  | _ => false
  end.

(** What holds of a request at every turn of the streaming loop. *)
Definition LoopInvariant (s : LoopState) : Prop :=
  NoDup (dispatched (trace s))
  /\ (forall idx, idx ∈ dispatched (trace s) -> idx ∈ triedIndices s)
  /\ (length (successes (trace s)) <= 1)%nat
  /\ (successes (trace s) <> [] -> exited s = true)
  /\ (existsb isCommit (trace s) = true -> started s = true)
  /\ (started s = true -> exited s = true)
  /\ quietAfterCommit false (trace s) = true.

(** ** 13. Scenarios *)

(** A tracked upstream as the start-up loop pushes it, with its toggle. *)
Definition freshTracked (svc : AIService) (en : bool) : EnhancedTrackedService :=
  mkTracked svc createInitialMetrics createInitialCircuitBreaker en.

(** Two upstreams, the first one switched off through the toggle endpoint. *)
Definition toggledPool : list EnhancedTrackedService :=
  [freshTracked (mkService "Gemini (Key #1)" gemini) false;
   freshTracked (mkService "Groq (Key #1)" groq) true].

(** A turn in which the adapter fails before its first chunk and the client
    stays connected. *)
Definition failingTurn : IterEnv :=
  mkIterEnv 1000 0 1100 1000 [] (GenThrow "First token timeout after 8000ms")
            false 9000 false.

(** A turn in which the adapter yields two chunks and the client disconnects
    between them. *)
Definition disconnectingTurn : IterEnv :=
  mkIterEnv 1000 0 1100 1000 [("Hel"%string, false); ("lo"%string, true)]
            GenDone false 1300 false.

(** A turn in which the adapter answers. *)
Definition answeringTurn : IterEnv :=
  mkIterEnv 1000 0 1100 1000 [("Hello"%string, false)] GenDone false 1300 false.

(** [{"messages":[{"role":"user","content":"hi"}],"stream":false}]. *)
Definition nonStreamingBody : JSValue :=
  JObject [("messages"%string,
            JArray [JObject [("role"%string, JString "user");
                             ("content"%string, JString "hi")]]);
           ("stream"%string, JBool false)].

(** ** 14. Well-formedness kept by the operations *)

(** What the breaker's operations keep true of a breaker: counters are not
    negative, a CLOSED breaker is below the failure threshold, an OPEN one
    remembers when it failed, and half-open attempts are counted only in
    HALF_OPEN. *)
Definition BreakerOk (cb : CircuitBreakerState) : Prop :=
  0 <= failures cb
  /\ 0 <= halfOpenAttempts cb
  /\ (state cb = CLOSED -> failures cb < CONFIG.circuitBreaker.failureThreshold)
  /\ (state cb = OPEN -> lastFailureTime cb <> None)
  /\ (state cb <> HALF_OPEN -> halfOpenAttempts cb = 0).

(** Failures recorded one after the other, at the given clock readings. *)
Definition recordFailures (nows : list Z) (tracked : EnhancedTrackedService)
  : EnhancedTrackedService :=
  fold_left (fun t now => recordFailure now t) nows tracked.

(** The only change an availability check makes to a tracked upstream: none,
    or the move of an OPEN breaker to HALF_OPEN with no attempt counted. *)
Definition Probed (before after : EnhancedTrackedService) : Prop :=
  after = before
  \/ (state (circuitBreaker before) = OPEN
      /\ after = withBreaker before
                   (mkBreaker HALF_OPEN (failures (circuitBreaker before))
                              (lastFailureTime (circuitBreaker before)) 0)).

(** A tracked upstream that a selection at [now] with the exclusions [excl]
    may return. *)
Definition Eligible (excl : gset nat) (now : Z) (idx : nat)
    (tracked : EnhancedTrackedService) : Prop :=
  (idx ∉ excl) /\ enabled tracked = true
  /\ (isServiceAvailable now tracked).1 = true.

(** ** 15. Success counters and the trace *)

(** [successCount] of the upstream tracked at a position. *)
Definition successCountAt (gw : Gateway) (idx : nat) : option Z :=
  successCount ∘ metrics <$> trackedServices gw !! idx.

(** How many successes a trace records for a position. *)
Definition recorded (tr : list Event) (idx : nat) : Z :=
  Z.of_nat (length (List.filter (Nat.eqb idx) (successes tr))).

(** The success counters of the pool are those of the pool [gw0] the request
    started from, plus what the request's trace records. *)
Definition SuccessLedger (gw0 : Gateway) (s : LoopState) : Prop :=
  forall idx,
    successCountAt (gateway s) idx
    = (fun c => c + recorded (trace s) idx) <$> successCountAt gw0 idx.

(* ================================================================== *)
(** * Part II: properties *)
(* ================================================================== *)

(** ** Circuit breaker *)

(** C2.  Recording a success in CLOSED sets [failures] to
    [max(0, failures - 1)] and stays CLOSED; a success in HALF_OPEN gives
    CLOSED with [failures = 0] and [halfOpenAttempts = 0]; a failure in CLOSED
    increments [failures] and opens the breaker exactly when the incremented
    count is at least [failureThreshold = 3]; a failure in HALF_OPEN gives OPEN
    with [halfOpenAttempts = 0] and [lastFailureTime] refreshed to now.  The
    service, its metrics and its enabled flag are untouched. *)
Theorem breaker_record_transitions :
  forall (now : Z) (svc : AIService) (m : ServiceMetrics) (en : bool)
         (f hoa : Z) (lft : option Z),
    let tracked st := mkTracked svc m (mkBreaker st f lft hoa) en in
    recordSuccess (tracked CLOSED)
      = mkTracked svc m (mkBreaker CLOSED (Z.max 0 (f - 1)) lft hoa) en
    /\ recordSuccess (tracked HALF_OPEN)
      = mkTracked svc m (mkBreaker CLOSED 0 lft 0) en
    /\ (let after := recordFailure now (tracked CLOSED) in
        service after = svc /\ metrics after = m /\ enabled after = en
        /\ failures (circuitBreaker after) = f + 1
        /\ (state (circuitBreaker after) = OPEN <-> 3 <= f + 1)
        /\ (state (circuitBreaker after) = CLOSED <-> f + 1 < 3)
        /\ lastFailureTime (circuitBreaker after) = Some now
        /\ halfOpenAttempts (circuitBreaker after) = hoa)
    /\ recordFailure now (tracked HALF_OPEN)
      = mkTracked svc m (mkBreaker OPEN f (Some now) 0) en.
Proof.
  intros now svc m en f hoa lft tracked.
  repeat split; try reflexivity; cbn;
    unfold CONFIG.circuitBreaker.failureThreshold;
    destruct (Z.leb_spec 3 (f + 1)); intros; (lia || congruence).
Qed.

(** The guard [cb.lastFailureTime && ...] reads a last-failure time of [0],
    the clock reading at the epoch itself, as a missing one: such a breaker
    stays unavailable.  Clock readings after the epoch are not concerned. *)
Lemma availability_zero_timestamp_stays_open :
  let tracked :=
    mkTracked (mkService "Groq (Key #1)" groq) createInitialMetrics
              (mkBreaker OPEN 3 (Some 0) 0) true in
  CONFIG.circuitBreaker.resetTimeoutMs <= 60000 - 0
  /\ isServiceAvailable 60000 tracked = (false, tracked).
Proof. split; [ discriminate | reflexivity ]. Qed.

(** The availability check, state by state and for every content of
    [lastFailureTime]: true on a CLOSED breaker; on an OPEN one, true exactly
    when [lastFailureTime] is set, is not zero and
    [now - lastFailureTime >= 60000], and then the breaker moves to HALF_OPEN
    with [halfOpenAttempts = 0] (otherwise nothing changes); on a HALF_OPEN
    one, true exactly when [halfOpenAttempts < 1], with no change. *)
Lemma availability_check_by_state :
  forall (now : Z) (svc : AIService) (m : ServiceMetrics) (en : bool)
         (f hoa : Z) (lft : option Z),
    let tracked st := mkTracked svc m (mkBreaker st f lft hoa) en in
    isServiceAvailable now (tracked CLOSED) = (true, tracked CLOSED)
    /\ ((isServiceAvailable now (tracked OPEN)).1 = true
        <-> exists t, lft = Some t /\ t <> 0 /\ 60000 <= now - t)
    /\ ((isServiceAvailable now (tracked OPEN)).1 = true ->
        (isServiceAvailable now (tracked OPEN)).2
          = mkTracked svc m (mkBreaker HALF_OPEN f lft 0) en)
    /\ ((isServiceAvailable now (tracked OPEN)).1 = false ->
        (isServiceAvailable now (tracked OPEN)).2 = tracked OPEN)
    /\ (isServiceAvailable now (tracked HALF_OPEN)).2 = tracked HALF_OPEN
    /\ ((isServiceAvailable now (tracked HALF_OPEN)).1 = true <-> hoa < 1).
Proof.
  intros now svc m en f hoa lft tracked.
  split; [ reflexivity | ].
  unfold isServiceAvailable, tracked, CONFIG.circuitBreaker.resetTimeoutMs,
    CONFIG.circuitBreaker.halfOpenMaxAttempts; cbn.
  assert (Hhalf : (hoa <? 1) = true <-> hoa < 1) by apply Z.ltb_lt.
  destruct lft as [t|]; cbn;
    [ destruct (Z.eqb_spec t 0) as [->|Hne]; cbn;
      [ | destruct (Z.leb_spec 60000 (now - t)); cbn ] | ];
    repeat split; try assumption; try apply Hhalf;
    try congruence; try discriminate;
    try (intros (t' & [= <-] & Hz & Hle); (congruence || lia));
    try (intros (t' & [=] & _)).
  intros _. exists t. auto.
Qed.

(** C3.  For a tracked upstream whose last-failure time, where it has one,
    is a clock reading [t] other than the epoch's zero: the availability check
    returns true when the breaker is CLOSED; when it is OPEN it returns true
    exactly when [now - t >= 60000], and in that case it moves the breaker to
    HALF_OPEN with [halfOpenAttempts = 0], otherwise it returns false and
    changes nothing; when it is HALF_OPEN it returns true exactly when
    [halfOpenAttempts < 1], with no state change. *)
Theorem availability_check_transitions :
  forall (now t : Z) (svc : AIService) (m : ServiceMetrics) (en : bool)
         (f hoa : Z) (lft : option Z),
    t <> 0 ->
    let closed := mkTracked svc m (mkBreaker CLOSED f lft hoa) en in
    let half := mkTracked svc m (mkBreaker HALF_OPEN f lft hoa) en in
    let open := mkTracked svc m (mkBreaker OPEN f (Some t) hoa) en in
    isServiceAvailable now closed = (true, closed)
    /\ ((isServiceAvailable now open).1 = true <-> 60000 <= now - t)
    /\ (60000 <= now - t ->
        isServiceAvailable now open
        = (true, mkTracked svc m (mkBreaker HALF_OPEN f (Some t) 0) en))
    /\ (now - t < 60000 -> isServiceAvailable now open = (false, open))
    /\ (isServiceAvailable now half).2 = half
    /\ ((isServiceAvailable now half).1 = true <-> hoa < 1).
Proof.
  intros now t svc m en f hoa lft Ht closed half open.
  destruct (availability_check_by_state now svc m en f hoa lft)
    as (Hclosed & _ & _ & _ & Hhalf & Hcap).
  destruct (availability_check_by_state now svc m en f hoa (Some t))
    as (_ & Hiff & Htrue & Hfalse & _ & _).
  fold open in Hiff, Htrue, Hfalse.
  assert (Hopen : (isServiceAvailable now open).1 = true <-> 60000 <= now - t).
  { rewrite Hiff. split.
    - intros (t' & [= <-] & _ & Hle). exact Hle.
    - intros Hle. exists t. auto. }
  repeat split; auto; try apply Hopen; try apply Hcap.
  - intros Hle. apply Hopen in Hle as Hyes.
    specialize (Htrue Hyes).
    destruct (isServiceAvailable now open) as [ok after]. cbn in *. congruence.
  - intros Hlt.
    assert (Hno : (isServiceAvailable now open).1 = false).
    { apply not_true_is_false. intros E. apply Hopen in E. lia. }
    specialize (Hfalse Hno).
    destruct (isServiceAvailable now open) as [ok after]. cbn in *. congruence.
Qed.

(** The availability check on a breaker that opened at 5 s, read at 70 s. *)
Lemma availability_check_transitions_witness :
  isServiceAvailable 70000
    (mkTracked (mkService "Groq (Key #1)" groq) createInitialMetrics
               (mkBreaker OPEN 3 (Some 5000) 0) true)
  = (true, mkTracked (mkService "Groq (Key #1)" groq) createInitialMetrics
                     (mkBreaker HALF_OPEN 3 (Some 5000) 0) true).
Proof.
  destruct (availability_check_transitions 70000 5000
              (mkService "Groq (Key #1)" groq) createInitialMetrics true 3 0
              (Some 5000) ltac:(lia)) as (_ & _ & Hopen & _).
  apply Hopen. lia.
Defined.

(** ** Display names and the priority bonus *)

Section Strings.

Lemma append_cons (c : ascii) (a b : string) :
  String c a +:+ b = String c (a +:+ b).
Proof. reflexivity. Qed.



Lemma chars_app (a b : string) :
  list_ascii_of_string (a +:+ b)
  = (list_ascii_of_string a ++ list_ascii_of_string b)%list.
Proof.
  induction a as [|c a IH]; [ reflexivity | ].
  rewrite append_cons. cbn [list_ascii_of_string]. now rewrite IH.
Qed.






End Strings.






(** The scorer reads the display name, not the [provider] field: on an
    adapter whose name did not come from its kind's constructor the two can
    part.  No such adapter is ever tracked (see the theorem below). *)
Lemma bonus_follows_display_name :
  let a := mkService "Gemini (Key #1)" gemini in
  let b := mkService "Groq mirror" gemini in
  provider a = provider b
  /\ ~ (bonus a == bonus b)%Q
  /\ ~ (bonus b == priorityBonus (provider b))%Q.
Proof. repeat split; intros H; discriminate H. Qed.




(** ** Health scorer *)

Lemma bonus_values (svc : AIService) :
  bonus svc = 0.15%Q \/ bonus svc = 0.10%Q \/ bonus svc = 0.05%Q
  \/ bonus svc = 0.00%Q.
Proof.
  unfold bonus.
  repeat match goal with |- context [if ?b then _ else _] => destruct b end;
    cbn; tauto.
Qed.

Lemma clamp_range (x : Q) : (0 <= clamp x 0 1 <= 1)%Q.
Proof.
  unfold clamp. split; [ apply Q.le_max_l | ].
  apply Q.max_lub; [ discriminate | apply Q.le_min_l ].
Qed.

(** In exact arithmetic: with a last error stamped [0], the clock reading at
    the epoch itself, [if (metrics.lastErrorTime)] applies no penalty. *)
Lemma health_score_zero_timestamp_no_penalty :
  let tracked :=
    mkTracked (mkService "Gemini (Key #1)" gemini)
              (mkMetrics 4 4 0 0 (Some "boom") (Some 0))
              createInitialCircuitBreaker true in
  (calculateHealthScore 0 tracked == 0.8)%Q
  /\ (healthScoreWith penaltyIfExists (bonus (service tracked)) 0 tracked == 0.5)%Q
  /\ ~ (calculateHealthScore 0 tracked
        == healthScoreWith penaltyIfExists (bonus (service tracked)) 0 tracked)%Q.
Proof. repeat split; intros H; discriminate H. Qed.

(** The scorer's expression read in exact arithmetic.  The source evaluates
    it in IEEE doubles, whose roundings this reading leaves out: the lemma
    says which formula the expression is, not which double comes out. *)
Lemma health_score_formula :
  forall (now : Z) (tracked : EnhancedTrackedService),
    (calculateHealthScore now tracked
     == healthScoreWith penaltyIfNonZero (bonus (service tracked)) now tracked)%Q
    /\ (0 <= calculateHealthScore now tracked <= 1)%Q.
Proof.
  intros now [svc m [st f lft hoa] en].
  assert (Heq : (calculateHealthScore now (mkTracked svc m (mkBreaker st f lft hoa) en)
                 == healthScoreWith penaltyIfNonZero (bonus svc) now
                      (mkTracked svc m (mkBreaker st f lft hoa) en))%Q).
  { unfold calculateHealthScore, healthScoreWith; cbn.
    destruct st; try reflexivity.
    unfold CONFIG.minRequestsForScoring.
    destruct (totalRequests m <? 3)%Z.
    - destruct (bonus_values svc) as [-> | [-> | [-> | ->]]]; reflexivity.
    - unfold clamp. apply Q.max_compat; [ reflexivity | ].
      apply Q.min_compat; [ reflexivity | ].
      assert (Hp : (if truthyTime (lastErrorTime m)
                    then if (now - default 0%Z (lastErrorTime m)
                             <? CONFIG.errorPenaltyDurationMs)%Z
                         then 0.3 * (1 - inject_Z (now - default 0%Z (lastErrorTime m))
                                         / inject_Z CONFIG.errorPenaltyDurationMs)
                         else 0
                    else 0)%Q = penaltyIfNonZero now m).
      { unfold penaltyIfNonZero, truthyTime.
        destruct (lastErrorTime m) as [t|]; [ | reflexivity ]. cbn.
        now destruct (t =? 0)%Z. }
      rewrite Hp. ring. }
  split; [ exact Heq | ].
  rewrite Heq. cbn. unfold healthScoreWith; cbn.
  destruct st; try (split; discriminate).
  destruct (totalRequests m <? 3)%Z; apply clamp_range.
Qed.

(** ** Selector *)

Section Selector.

Context {A : Type} (before : A -> A -> bool).

Lemma insertBy_perm (x : A) (l : list A) : insertBy before x l ≡ₚ x :: l.
Proof.
  induction l as [|y l IH]; cbn; [ done | ].
  destruct (before y x); [ | done ].
  rewrite IH. apply Permutation_swap.
Qed.

Lemma sortBy_perm (l : list A) : sortBy before l ≡ₚ l.
Proof.
  induction l as [|x l IH]; cbn; [ done | ].
  fold (sortBy before l). now rewrite insertBy_perm, IH.
Qed.

Lemma sortBy_length (l : list A) : length (sortBy before l) = length l.
Proof. now rewrite sortBy_perm. Qed.

End Selector.

(** The entries of [available] carry increasing positions of the pool, none
    of them excluded, and the availability checks do not resize the pool. *)
Lemma availableFrom_spec (excl : gset nat) (now : Z)
    (services : list EnhancedTrackedService) :
  forall idx avail services',
    availableFrom excl now idx services = (avail, services') ->
    length services' = length services
    /\ Forall (fun c => (idx <= index c < idx + length services)%nat
                        /\ index c ∉ excl) avail
    /\ NoDup (index <$> avail).
Proof.
  induction services as [|tracked rest IH]; intros idx avail services' H; cbn in H.
  - injection H as <- <-. repeat split; constructor.
  - destruct (availableFrom excl now (S idx) rest) as [avail0 rest'] eqn:Hrest.
    destruct (IH _ _ _ Hrest) as (Hlen & Hall & Hnd).
    assert (Hall' : Forall (fun c => (idx <= index c < idx + length (tracked :: rest))%nat
                                     /\ index c ∉ excl) avail0).
    { eapply Forall_impl; [ exact Hall | ]. cbn. intros c [? ?]. split; [ lia | done ]. }
    case_bool_decide as Hex.
    { injection H as <- <-. cbn. auto. }
    destruct (enabled tracked); cbn in H.
    2:{ injection H as <- <-. cbn. auto. }
    destruct (isServiceAvailable now tracked) as [ok tracked'].
    injection H as <- <-. cbn. split; [ auto | ].
    destruct ok; [ | auto ].
    split.
    + constructor; [ cbn; split; [ lia | done ] | done ].
    + cbn. constructor; [ | done ].
      intros Hin. apply list_elem_of_fmap in Hin as (c & Hc & Hin).
      rewrite Forall_forall in Hall. destruct (Hall c Hin) as [? _]. lia.
Qed.

Lemma draw_elem (scored : list Scored) :
  forall random s, draw random scored = Some s -> s ∈ scored.
Proof.
  induction scored as [|s0 rest IH]; intros random s H; cbn in H; [ done | ].
  destruct (Qle_bool (random - weight s0) 0).
  - injection H as <-. left.
  - right. eauto.
Qed.

(** The selector only returns a position that is in range and not
    excluded; it never resizes the pool. *)
Lemma getNextService_spec (excl : gset nat) (mode : RoutingMode) (now : Z)
    (random : Q) (gw gw' : Gateway) (choice : option nat) :
  getNextService excl mode now random gw = (choice, gw') ->
  length (trackedServices gw') = length (trackedServices gw)
  /\ inFlightRequests gw' = inFlightRequests gw
  /\ forall idx, choice = Some idx ->
       (idx ∉ excl) /\ (idx < length (trackedServices gw))%nat.
Proof.
  unfold getNextService.
  destruct (availableFrom excl now 0 (trackedServices gw)) as [avail services'] eqn:Hav.
  destruct (availableFrom_spec _ _ _ _ _ _ Hav) as (Hlen & Hall & _).
  rewrite Forall_forall in Hall.
  assert (Hcand : forall c, c ∈ avail ->
            (index c ∉ excl) /\ (index c < length (trackedServices gw))%nat).
  { intros c Hc. destruct (Hall c Hc) as [[_ ?] ?]. auto. }
  assert (Hscored : forall s,
            s ∈ sortBy byScoreDesc
                  (map (fun c => mkScored c (calculateHealthScore now (ts c))) avail) ->
            candidate s ∈ avail).
  { intros s Hs. rewrite sortBy_perm in Hs.
    apply list_elem_of_fmap in Hs as (c & -> & Hc). exact Hc. }
  intros H.
  destruct avail as [|c1 [|c2 rest]].
  - injection H as <- <-; split; [ exact Hlen | split; [ reflexivity | ] ]. discriminate.
  - injection H as <- <-; split; [ exact Hlen | split; [ reflexivity | ] ].
    intros idx [= <-]. apply Hcand. left.
  - destruct mode.
    + (* smart *)
      destruct (draw _ _) as [s|] eqn:Hd.
      * injection H as <- <-; split; [ exact Hlen | split; [ reflexivity | ] ].
        intros idx [= <-]. apply Hcand, Hscored. eapply draw_elem, Hd.
      * injection H as <- <-; split; [ exact Hlen | split; [ reflexivity | ] ].
        intros idx Hh. apply fmap_Some in Hh as (s & Hs & ->).
        apply Hcand, Hscored. eapply head_Some_elem_of, Hs.
    + (* fastest *)
      injection H as <- <-; split; [ exact Hlen | split; [ reflexivity | ] ].
      intros idx Hh. apply fmap_Some in Hh as (s & Hs & ->).
      apply Hcand, Hscored. eapply head_Some_elem_of, Hs.
    + (* round-robin *)
      injection H as <- <-; split; [ exact Hlen | split; [ reflexivity | ] ].
      intros idx Hh. apply fmap_Some in Hh as (c & Hc & ->).
      apply Hcand. rewrite <- (sortBy_perm byIndex).
      eapply list_elem_of_lookup_2, Hc.
Qed.

(** *** Round-robin *)

(** With at least two candidates and a pool that the availability checks
    leave as it is, a round-robin selection reads the slot
    [pointer mod k] of the sorted candidates and advances the pointer modulo
    the size of the pool. *)
Lemma round_robin_step (excl : gset nat) (now : Z) (random : Q) (gw : Gateway)
    (cands : list Candidate) :
  availableFrom excl now 0 (trackedServices gw) = (cands, trackedServices gw) ->
  (2 <= length cands)%nat ->
  getNextService excl round_robin now random gw
  = (index <$> sortBy byIndex cands !! (roundRobinPointer gw mod length cands)%nat,
     withPointer gw ((roundRobinPointer gw + 1) mod length (trackedServices gw))%nat).
Proof.
  intros Hav Hk. unfold getNextService. rewrite Hav.
  destruct cands as [|c1 [|c2 rest]]; [ cbn in Hk; lia | cbn in Hk; lia | ].
  rewrite sortBy_length. now destruct gw.
Qed.

Lemma slot_injective (n k p i j : nat) :
  (p < n)%nat -> (0 < k)%nat -> ((p + k <= n)%nat \/ Nat.divide k n) ->
  (i < k)%nat -> (j < k)%nat ->
  (((p + i) mod n) mod k = ((p + j) mod n) mod k)%nat -> i = j.
Proof.
  intros Hp Hk Hcase Hi Hj Heq.
  assert (Hmod : ((p + i) mod k = (p + j) mod k)%nat).
  { destruct Hcase as [Hfit | [m ->]].
    - now rewrite !(Nat.mod_small _ n) in Heq by lia.
    - rewrite (Nat.mul_comm m k) in Heq.
      rewrite !Nat.Div0.mod_mul_r in Heq.
      rewrite !(Nat.mul_comm k), !Nat.Div0.mod_add in Heq.
      now rewrite !Nat.Div0.mod_mod in Heq. }
  pose proof (Nat.div_mod_eq (p + i) k) as Ei.
  pose proof (Nat.div_mod_eq (p + j) k) as Ej.
  rewrite Hmod in Ei.
  generalize dependent ((p + i) / k)%nat. generalize dependent ((p + j) / k)%nat.
  generalize ((p + j) mod k)%nat. intros r b Ej a Ei.
  destruct (Nat.lt_trichotomy a b) as [Hlt | [-> | Hlt]]; [ exfalso | lia | exfalso ].
  - assert (k * (a + 1) <= k * b)%nat by (apply Nat.mul_le_mono_l; lia). lia.
  - assert (k * (b + 1) <= k * a)%nat by (apply Nat.mul_le_mono_l; lia). lia.
Qed.

Lemma selectMany_round_robin (excl : gset nat) (cands : list Candidate)
    (services : list EnhancedTrackedService) (inflight : Z) (down : bool) :
  (2 <= length cands)%nat ->
  forall (nows : list Z) (p : nat),
    (p < length services)%nat ->
    (forall now, now ∈ nows ->
       availableFrom excl now 0 services = (cands, services)) ->
    selectMany excl round_robin nows (mkGateway services p inflight down)
    = ((fun i => index <$> sortBy byIndex cands
                   !! (((p + i) mod length services) mod length cands)%nat)
         <$> seq 0 (length nows),
       mkGateway services ((p + length nows) mod length services)%nat
                 inflight down).
Proof.
  intros Hk nows. induction nows as [|now rest IH]; intros p Hp Hfix.
  - cbn. now rewrite Nat.add_0_r, Nat.mod_small.
  - cbn [selectMany].
    rewrite (round_robin_step excl now 0%Q _ cands)
      by (try apply Hfix; try left; done).
    unfold withPointer.
    cbn [roundRobinPointer trackedServices inFlightRequests isShuttingDown].
    rewrite IH.
    + cbn [length seq fmap list_fmap]. f_equal.
      * f_equal.
        { now rewrite Nat.add_0_r, (Nat.mod_small p (length services)). }
        rewrite <- fmap_S_seq, <- list_fmap_compose.
        apply list_fmap_ext. intros _ i _. cbn.
        rewrite Nat.Div0.add_mod_idemp_l.
        now replace (p + 1 + i)%nat with (p + S i)%nat by lia.
      * f_equal. rewrite Nat.Div0.add_mod_idemp_l. f_equal. lia.
    + apply Nat.mod_upper_bound. lia.
    + intros now' Hin. apply Hfix. now right.
Qed.

(** C6 (the claim as worded fails).  Three tracked upstreams, the third one
    disabled, so two candidates; with the cursor at 2 two consecutive
    round-robin selections both return position 0.  From the initial cursor 0
    the four selections are 0, 1, 0, 0. *)
Lemma round_robin_repeats_at_wrap :
  let fresh n p en :=
    mkTracked (mkService n p) createInitialMetrics createInitialCircuitBreaker en in
  let pool := [fresh "Cerebras (Key #1)" cerebras true;
               fresh "Groq (Key #1)" groq true;
               fresh "Gemini (Key #1)" gemini false] in
  (availableFrom ∅ 0 0 pool).2 = pool
  /\ index <$> (availableFrom ∅ 0 0 pool).1 = [0; 1]%nat
  /\ (selectMany ∅ round_robin [0; 0] (mkGateway pool 2 0 false)).1
     = [Some 0; Some 0]%nat
  /\ (selectMany ∅ round_robin [0; 0; 0; 0] (mkGateway pool 0 0 false)).1
     = [Some 0; Some 1; Some 0; Some 0]%nat.
Proof. repeat split; vm_compute; reflexivity. Qed.

(** C6 (amended).  Take a candidate set that stays the same over the
    selections (same exclusions, availability checks that leave the pool as it
    is), of size [k], in a pool of [n] tracked upstreams with the cursor [p]
    below [n].  If [k = 1] the selection returns the only candidate and leaves
    the cursor where it is.  If [k >= 2], the [i]-th of [k] consecutive
    round-robin selections returns the candidate in slot
    [((p + i) mod n) mod k] of the candidates sorted by position, and the
    cursor ends at [(p + k) mod n]; the [k] selections are pairwise distinct
    candidates whenever the cursor does not wrap during them ([p + k <= n]) or
    [k] divides [n]. *)
Theorem round_robin_rotation :
  forall (excl : gset nat) (gw : Gateway) (cands : list Candidate)
         (nows : list Z),
    let n := length (trackedServices gw) in
    let k := length cands in
    let p := roundRobinPointer gw in
    let run := selectMany excl round_robin nows gw in
    (forall now, now ∈ nows ->
       availableFrom excl now 0 (trackedServices gw) = (cands, trackedServices gw)) ->
    (p < n)%nat ->
    length nows = k ->
    (k = 1%nat -> run = ([index <$> head cands], gw))
    /\ ((2 <= k)%nat ->
        run.1 = (fun i => index <$> sortBy byIndex cands
                            !! (((p + i) mod n) mod k)%nat) <$> seq 0 k
        /\ run.2 = withPointer gw ((p + k) mod n)%nat
        /\ ((p + k <= n)%nat \/ Nat.divide k n ->
            NoDup run.1 /\ Forall is_Some run.1)).
Proof.
  intros excl [services p inflight down] cands nows n k p' run Hfix Hp Hlen.
  cbn in n, p', Hfix, Hp. subst n p' k. split.
  - (* a single candidate *)
    intros Hk. subst run.
    destruct cands as [|c [|? ?]]; try discriminate Hk.
    destruct nows as [|now [|? ?]]; try discriminate Hlen.
    cbn [selectMany]. unfold getNextService. cbn [trackedServices].
    rewrite (Hfix now) by left. reflexivity.
  - intros Hk. subst run.
    rewrite (selectMany_round_robin excl cands services inflight down Hk nows p Hp Hfix).
    rewrite Hlen. cbn [fst snd]. split; [ reflexivity | ]. split; [ reflexivity | ].
    intros Hcase.
    (* the sorted candidates carry pairwise distinct positions *)
    assert (Hnd : NoDup (index <$> sortBy byIndex cands)).
    { destruct nows as [|now rest]; [ cbn in Hlen; lia | ].
      destruct (availableFrom_spec _ _ _ _ _ _ (Hfix now ltac:(left))) as (_ & _ & Hnd).
      now rewrite sortBy_perm. }
    assert (Hsome : forall i, (i < length cands)%nat ->
              exists c, sortBy byIndex cands
                          !! (((p + i) mod length services) mod length cands)%nat
                        = Some c).
    { intros i Hi. apply lookup_lt_is_Some. rewrite sortBy_length.
      apply Nat.mod_upper_bound. lia. }
    split.
    + apply NoDup_fmap_2_strong; [ | apply NoDup_seq ].
      intros i j Hi Hj Heq.
      apply elem_of_seq in Hi, Hj.
      destruct (Hsome i ltac:(lia)) as [ci Hci].
      destruct (Hsome j ltac:(lia)) as [cj Hcj].
      rewrite Hci, Hcj in Heq. cbn in Heq. injection Heq as Heq.
      apply (slot_injective (length services) (length cands) p); try lia; try done.
      eapply (NoDup_lookup _ _ _ (index ci) Hnd).
      * rewrite list_lookup_fmap, Hci. reflexivity.
      * rewrite list_lookup_fmap, Hcj, Heq. reflexivity.
    + apply Forall_fmap, Forall_forall. intros i Hi. cbn.
      apply elem_of_seq in Hi.
      destruct (Hsome i ltac:(lia)) as [c Hc]. rewrite Hc. now eexists.
Qed.

(** The amended rotation on a pool of two enabled upstreams, from the
    initial cursor. *)
Lemma round_robin_rotation_witness :
  let fresh n p :=
    mkTracked (mkService n p) createInitialMetrics createInitialCircuitBreaker true in
  let pool := [fresh "Cerebras (Key #1)" cerebras; fresh "Groq (Key #1)" groq] in
  NoDup (selectMany ∅ round_robin [0; 0] (mkGateway pool 0 0 false)).1.
Proof.
  intros fresh pool.
  assert (Hfix : forall now : Z, now ∈ [0; 0] ->
            availableFrom ∅ now 0 (trackedServices (mkGateway pool 0 0 false))
            = ((availableFrom ∅ 0 0 pool).1,
               trackedServices (mkGateway pool 0 0 false))).
  { intros now Hin.
    assert (now = 0) as -> by (repeat (apply elem_of_cons in Hin as [->|Hin]; [ reflexivity | ]); inversion Hin).
    reflexivity. }
  destruct (round_robin_rotation ∅ (mkGateway pool 0 0 false)
              (availableFrom ∅ 0 0 pool).1 [0; 0] Hfix
              ltac:(vm_compute; lia) eq_refl) as [_ Hrot].
  destruct Hrot as (_ & _ & Hnd); [ vm_compute; lia | ].
  apply Hnd. left. vm_compute. lia.
Defined.

(** ** Streaming fail-over loop *)

Section Traces.

Lemma dispatched_app (l1 l2 : list Event) :
  dispatched (l1 ++ l2) = dispatched l1 ++ dispatched l2.
Proof. apply omap_app. Qed.

Lemma successes_app (l1 l2 : list Event) :
  successes (l1 ++ l2) = successes l1 ++ successes l2.
Proof. apply omap_app. Qed.

Lemma quiet_app (l1 l2 : list Event) :
  forall c,
    quietAfterCommit c (l1 ++ l2)
    = quietAfterCommit c l1 && quietAfterCommit (c || existsb isCommit l1) l2.
Proof.
  induction l1 as [|e l1 IH]; intros c; cbn.
  - now rewrite orb_false_r.
  - rewrite IH. now rewrite <- andb_assoc, orb_assoc.
Qed.

Lemma quietEvents_spec (l : list Event) :
  forallb isQuiet l = true ->
  dispatched l = [] /\ forall c, quietAfterCommit c l = true.
Proof.
  induction l as [|e l IH]; cbn; intros H; [ done | ].
  apply andb_true_iff in H as [He Hl].
  destruct (IH Hl) as (Hd & Hq).
  destruct e; try discriminate He; cbn; split; auto;
    intros c; rewrite Hq; now destruct c.
Qed.

(** Streaming events are neither selections, dispatches nor successes. *)
Lemma frames_quiet (l : list Event) :
  forallb isFrame l = true ->
  forallb isQuiet l = true /\ successes l = [].
Proof.
  induction l as [|e l IH]; cbn; intros H; [ done | ].
  apply andb_true_iff in H as [He Hl].
  destruct (IH Hl) as (Hq & Hs).
  destruct e; try discriminate He; cbn; auto.
Qed.

Lemma uncommitted_quiet (l : list Event) :
  existsb isCommit l = false -> quietAfterCommit false l = true.
Proof.
  induction l as [|e l IH]; cbn; intros H; [ done | ].
  apply orb_false_iff in H as [-> Hl]. auto.
Qed.

Lemma backoffBefore_spec (n : Z) :
  dispatched (backoffBefore n) = [] /\ successes (backoffBefore n) = []
  /\ existsb isCommit (backoffBefore n) = false.
Proof. unfold backoffBefore. now destruct (1 <? n). Qed.

(** What a checked trace says about its suffixes. *)
Lemma quiet_split (tr pre post : list Event) (e : Event) :
  quietAfterCommit false tr = true ->
  tr = pre ++ e :: post -> isCommit e = true ->
  Forall (fun e' => isSelected e' = false /\ isDispatched e' = false) post.
Proof.
  intros Hq -> He. rewrite quiet_app in Hq.
  apply andb_true_iff in Hq as [_ Hq]. cbn in Hq.
  rewrite He, orb_true_r in Hq. apply andb_true_iff in Hq as [_ Hq].
  clear He. induction post as [|e' post IH]; [ constructor | ].
  cbn in Hq. apply andb_true_iff in Hq as [He' Hq].
  constructor; [ | auto ].
  apply negb_true_iff, orb_false_iff in He'. exact He'.
Qed.

End Traces.

(** The [for await] loop emits streaming events only; it never resets
    [started], and a commit in its events leaves [started] set. *)
Lemma forAwait_spec (idx : nat) (ending : GenEnd) (chunks : list (string * bool)) :
  forall started aborted frames started' aborted' thrown,
    forAwait idx started aborted chunks ending
    = (frames, started', aborted', thrown) ->
    forallb isFrame frames = true
    /\ (started = true -> started' = true)
    /\ (existsb isCommit frames = true -> started' = true).
Proof.
  induction chunks as [|[chunk gone] rest IH];
    intros started aborted frames started' aborted' thrown H; cbn in H.
  - destruct ending; injection H as <- <- <- <-; done.
  - destruct (aborted || gone); [ injection H as <- <- <- <-; done | ].
    destruct (isEmpty chunk); [ eauto | ].
    destruct (forAwait idx true false rest ending)
      as [[[frames1 started1] aborted1] thrown1] eqn:Hrest.
    destruct (IH _ _ _ _ _ _ Hrest) as (Hf & Hs & _).
    injection H as <- <- <- <-.
    rewrite forallb_app, Hf. specialize (Hs eq_refl).
    now destruct started.
Qed.

(** The events of an attempt: the back-off, the dispatch, and a tail without
    selector call or dispatch. *)
Lemma attempt_shape (n : Z) (idx : nat) (tail : list Event) :
  forallb isQuiet tail = true ->
  dispatched (backoffBefore n ++ Dispatched idx :: tail) = [idx]
  /\ successes (backoffBefore n ++ Dispatched idx :: tail) = successes tail
  /\ existsb isCommit (backoffBefore n ++ Dispatched idx :: tail)
     = existsb isCommit tail
  /\ quietAfterCommit false (backoffBefore n ++ Dispatched idx :: tail) = true.
Proof.
  intros Hq. destruct (quietEvents_spec _ Hq) as (Hd & Hqa).
  destruct (backoffBefore_spec n) as (Hbd & Hbs & Hbc).
  rewrite dispatched_app, successes_app, existsb_app, quiet_app, Hbd, Hbs, Hbc.
  rewrite (uncommitted_quiet _ Hbc). cbn. fold (dispatched tail).
  now rewrite Hd, Hqa.
Qed.

(** What an attempt adds to a request that had not started: one dispatch,
    to [idx], which joins the tried set; at most one recorded success, and
    then the loop is left; [started] is set by the time anything is
    committed, and whenever it is set the loop is left. *)
Lemma attempt_spec (e : IterEnv) (idx : nat) (s : LoopState) :
  started s = false ->
  exists evs,
    trace (attempt e idx s) = trace s ++ evs
    /\ dispatched evs = [idx]
    /\ triedIndices (attempt e idx s) = {[idx]} ∪ triedIndices s
    /\ (successes evs = [] \/ successes evs = [idx] /\ exited (attempt e idx s) = true)
    /\ (existsb isCommit evs = true -> started (attempt e idx s) = true)
    /\ quietAfterCommit false evs = true
    /\ (started (attempt e idx s) = true -> exited (attempt e idx s) = true).
Proof.
  intros Hst. unfold attempt. rewrite Hst.
  pose proof (attempt_shape (attemptNumber s + 1) idx) as Hshape.
  set (pre := backoffBefore (attemptNumber s + 1)) in *.
  destruct (chunks e) as [|[first gone] rest].
  - destruct (ending e) as [|msg].
    + destruct (aborted s || abortedAtEnd e); cbn.
      * exists (pre ++ Dispatched idx :: []).
        destruct (Hshape [] eq_refl) as (-> & -> & -> & ->).
        repeat split; auto; discriminate.
      * exists (pre ++ Dispatched idx :: [Committed idx; Succeeded idx; Metadata idx]).
        destruct (Hshape [Committed idx; Succeeded idx; Metadata idx] eq_refl)
          as (-> & -> & -> & ->).
        rewrite <- ?app_assoc; cbn. repeat split; auto.
    + cbn. exists (pre ++ Dispatched idx :: [Failed idx msg]).
      destruct (Hshape [Failed idx msg] eq_refl) as (-> & -> & -> & ->).
      rewrite <- ?app_assoc; cbn. repeat split; auto; discriminate.
  - destruct (aborted s || gone); cbn.
    { exists (pre ++ Dispatched idx :: []).
      destruct (Hshape [] eq_refl) as (-> & -> & -> & ->).
      repeat split; auto; discriminate. }
    destruct (forAwait idx (negb (isEmpty first)) false rest (ending e))
      as [[[frames started1] aborted1] thrown] eqn:Hfa.
    destruct (forAwait_spec _ _ _ _ _ _ _ _ _ Hfa) as (Hframes & Hmono & Hcommit).
    set (frames0 := if isEmpty first then []
                    else [Committed idx; Metadata idx; Chunk idx first]) in *.
    assert (Hall : forallb isFrame (frames0 ++ frames) = true).
    { rewrite forallb_app, Hframes. subst frames0. now destruct (isEmpty first). }
    destruct (frames_quiet _ Hall) as (Hfq & Hfs).
    assert (Hc : existsb isCommit (frames0 ++ frames) = true -> started1 = true).
    { rewrite existsb_app. intros Hc. apply orb_true_iff in Hc as [Hc|Hc]; [ | auto ].
      apply Hmono. subst frames0. now destruct (isEmpty first). }
    destruct thrown as [msg|]; [ | destruct started1 ]; cbn.
    + exists (pre ++ Dispatched idx :: (frames0 ++ frames) ++ [Failed idx msg]).
      destruct (Hshape ((frames0 ++ frames) ++ [Failed idx msg]))
        as (-> & -> & -> & ->); [ now rewrite forallb_app, Hfq | ].
      rewrite successes_app, Hfs, existsb_app, orb_false_r.
      rewrite <- ?app_assoc; cbn; rewrite <- ?app_assoc. repeat split; auto.
    + exists (pre ++ Dispatched idx :: (frames0 ++ frames) ++ [Succeeded idx]).
      destruct (Hshape ((frames0 ++ frames) ++ [Succeeded idx]))
        as (-> & -> & -> & ->); [ now rewrite forallb_app, Hfq | ].
      rewrite successes_app, Hfs.
      rewrite <- ?app_assoc; cbn; rewrite <- ?app_assoc. repeat split; auto.
    + exists (pre ++ Dispatched idx :: (frames0 ++ frames)).
      destruct (Hshape (frames0 ++ frames) Hfq) as (-> & -> & -> & ->).
      rewrite Hfs.
      rewrite <- ?app_assoc; cbn; rewrite <- ?app_assoc.
      repeat split; auto; discriminate.
Qed.

(** One turn of the loop, for a request that has not started. *)
Lemma iteration_spec (mode : RoutingMode) (e : IterEnv) (s : LoopState) :
  started s = false ->
  exists evs,
    trace (iteration mode e s) = trace s ++ evs
    /\ (dispatched evs = [] /\ triedIndices (iteration mode e s) = triedIndices s
        \/ exists idx, (idx ∉ triedIndices s) /\ dispatched evs = [idx]
             /\ triedIndices (iteration mode e s) = {[idx]} ∪ triedIndices s)
    /\ (successes evs = []
        \/ (exists idx, successes evs = [idx]) /\ exited (iteration mode e s) = true)
    /\ (existsb isCommit evs = true -> started (iteration mode e s) = true)
    /\ quietAfterCommit false evs = true
    /\ (started (iteration mode e s) = true -> exited (iteration mode e s) = true).
Proof.
  intros Hst. unfold iteration.
  destruct (getNextService (triedIndices s) mode (selectNow e) (random e) (gateway s))
    as [choice gw1] eqn:Hsel.
  destruct (getNextService_spec _ _ _ _ _ _ _ Hsel) as (_ & _ & Hchoice).
  destruct choice as [idx|].
  - destruct (Hchoice idx eq_refl) as [Hnew _].
    set (s1 := mkLoop gw1 (triedIndices s) (attemptNumber s) (started s)
                      (aborted s) false (trace s ++ [Selected (Some idx)])).
    destruct (attempt_spec e idx s1 Hst)
      as (evs & Htr & Hd & Htried & Hsucc & Hcommit & Hquiet & Hexit).
    exists (Selected (Some idx) :: evs).
    assert (Hfields :
      forall s2, s2 = attempt e idx s1 ->
        let s' := if exited s2 then s2
                  else mkLoop (gateway s2) (triedIndices s2) (attemptNumber s2)
                              (started s2) (aborted s2 || abortedAfter e) false
                              (trace s2) in
        trace s' = trace s2 /\ triedIndices s' = triedIndices s2
        /\ started s' = started s2 /\ exited s' = exited s2).
    { intros s2 _. now destruct (exited s2) eqn:E. }
    destruct (Hfields _ eq_refl) as (-> & -> & -> & ->).
    rewrite Htr. cbn [trace s1]. rewrite <- app_assoc. cbn.
    split; [ reflexivity | ].
    split; [ right; exists idx; fold (dispatched evs); rewrite Hd; auto | ].
    fold (successes evs).
    split; [ destruct Hsucc as [->| [-> ->]]; eauto | ].
    split; [ exact Hcommit | ].
    split; [ exact Hquiet | exact Hexit ].
  - destruct (0 <? attemptNumber s).
    + destruct (someReopened (triedIndices s) (reprobeNow e) 0 (trackedServices gw1))
        as [reopened services'].
      exists [Selected None; Slept (calculateBackoffDelay (attemptNumber s))].
      destruct reopened; cbn; rewrite <- ?app_assoc; cbn; rewrite Hst;
        repeat split; auto; discriminate.
    + exists [Selected None]. cbn. rewrite Hst.
      repeat split; auto; discriminate.
Qed.

(** A turn keeps the invariant of the loop. *)
Lemma iteration_invariant (mode : RoutingMode) (e : IterEnv) (s : LoopState) :
  LoopInvariant s -> exited s = false ->
  LoopInvariant (iteration mode e s)
  /\ triedIndices s ⊆ triedIndices (iteration mode e s).
Proof.
  intros (Hnd & Hin & Hlen & Hsx & Hcs & Hse & Hq) Hex.
  assert (Hst : started s = false).
  { destruct (started s); [ rewrite Hse in Hex | ]; done. }
  assert (Hs0 : successes (trace s) = []).
  { destruct (successes (trace s)); [ done | ]. rewrite Hsx in Hex; done. }
  assert (Hc0 : existsb isCommit (trace s) = false).
  { destruct (existsb isCommit (trace s)); [ rewrite Hcs in Hst | ]; done. }
  destruct (iteration_spec mode e s Hst)
    as (evs & Htr & Hdisp & Hsucc & Hcommit & Hquiet & Hexit).
  unfold LoopInvariant. rewrite Htr.
  rewrite dispatched_app, successes_app, existsb_app, quiet_app, Hs0, Hc0, Hq.
  cbn [app orb andb].
  destruct Hdisp as [[-> ->] | (idx & Hnew & -> & ->)].
  - rewrite app_nil_r. repeat split; auto.
    + destruct Hsucc as [-> | [[i ->] _]]; cbn; lia.
    + destruct Hsucc as [-> | [_ ->]]; done.
  - repeat split; auto.
    + apply NoDup_app. repeat split; [ done | | apply NoDup_singleton ].
      intros i Hi Hi'. apply list_elem_of_singleton in Hi' as ->. auto.
    + intros i Hi. apply elem_of_app in Hi as [Hi | Hi].
      * apply elem_of_union_r. auto.
      * apply list_elem_of_singleton in Hi as ->.
        apply elem_of_union_l. now apply elem_of_singleton.
    + destruct Hsucc as [-> | [[i ->] _]]; cbn; lia.
    + destruct Hsucc as [-> | [_ ->]]; done.
    + apply union_subseteq_r.
Qed.

Lemma initialLoop_invariant (gw : Gateway) : LoopInvariant (initialLoop gw).
Proof.
  unfold LoopInvariant; cbn. repeat split; auto; try discriminate.
  - constructor.
  - intros idx H. inversion H.
Qed.

Lemma finished_false_exited (s : LoopState) : finished s = false -> exited s = false.
Proof. unfold finished. now destruct (exited s). Qed.

(** The invariant holds all along a run, and the tried set only grows. *)
Lemma runLoop_invariant (mode : RoutingMode) (envs : list IterEnv) :
  forall s, LoopInvariant s ->
    LoopInvariant (runLoop mode envs s)
    /\ triedIndices s ⊆ triedIndices (runLoop mode envs s).
Proof.
  induction envs as [|e envs IH]; intros s Hinv; cbn; [ done | ].
  destruct (finished s) eqn:Hfin; [ done | ].
  destruct (iteration_invariant mode e s Hinv (finished_false_exited _ Hfin))
    as [Hinv' Hsub].
  destruct (IH _ Hinv') as [Hfinal Hsub'].
  split; [ exact Hfinal | ].
  transitivity (triedIndices (iteration mode e s)); assumption.
Qed.

(** A run over a script is the run over its first part, continued. *)
Lemma runLoop_app (mode : RoutingMode) (envs1 envs2 : list IterEnv) :
  forall s, runLoop mode (envs1 ++ envs2) s
            = runLoop mode envs2 (runLoop mode envs1 s).
Proof.
  induction envs1 as [|e envs1 IH]; intros s; cbn; [ done | ].
  destruct (finished s) eqn:Hfin; [ | apply IH ].
  destruct envs2; cbn; [ done | now rewrite Hfin ].
Qed.

(** *** The re-probe branch *)

(** The state in which the loop of the scenario below stays: the enabled
    upstream has been tried and has failed once, the disabled one is
    untouched. *)
Lemma reprobe_turn (tr : list Event) :
  let s1 := iteration smart failingTurn (initialLoop (mkGateway toggledPool 0 0 false)) in
  let s := mkLoop (gateway s1) (triedIndices s1) 1 false false false tr in
  finished s = false
  /\ iteration smart failingTurn s
     = mkLoop (gateway s1) (triedIndices s1) 1 false false false
              (tr ++ [Selected None; Slept 100]).
Proof.
  intros s1 s. split; [ vm_compute; reflexivity | ].
  unfold iteration, s.
  cbn [triedIndices gateway attemptNumber started aborted exited trace].
  assert (Hsel : getNextService (triedIndices s1) smart (selectNow failingTurn)
                   (random failingTurn) (gateway s1) = (None, gateway s1))
    by (vm_compute; reflexivity).
  rewrite Hsel.
  assert (Hre : someReopened (triedIndices s1) (reprobeNow failingTurn) 0
                  (trackedServices (gateway s1))
                = (true, trackedServices (gateway s1)))
    by (vm_compute; reflexivity).
  rewrite Hre.
  cbn [Z.ltb Z.compare negb exited orb aborted abortedAfter failingTurn
       gateway triedIndices attemptNumber started trace].
  rewrite <- app_assoc.
  assert (Hgw : withServices (gateway s1) (trackedServices (gateway s1)) = gateway s1)
    by now destruct (gateway s1).
  rewrite Hgw. reflexivity.
Qed.

Lemma reprobe_forever (n : nat) :
  forall tr,
    let s1 := iteration smart failingTurn (initialLoop (mkGateway toggledPool 0 0 false)) in
    runLoop smart (repeat failingTurn n)
            (mkLoop (gateway s1) (triedIndices s1) 1 false false false tr)
    = mkLoop (gateway s1) (triedIndices s1) 1 false false false
             (tr ++ concat (repeat [Selected None; Slept 100] n)).
Proof.
  induction n as [|n IH]; intros tr s1; subst s1; cbn [repeat runLoop concat].
  - now rewrite app_nil_r.
  - destruct (reprobe_turn tr) as [-> ->].
    rewrite (IH (tr ++ [Selected None; Slept 100])).
    now rewrite <- app_assoc.
Qed.

Lemma selectorCalls_reprobes (n : nat) (tr : list Event) :
  selectorCalls (tr ++ concat (repeat [Selected None; Slept 100] n))
  = (selectorCalls tr + n)%nat
  /\ sleeps (tr ++ concat (repeat [Selected None; Slept 100] n))
     = (sleeps tr + n)%nat
  /\ dispatched (tr ++ concat (repeat [Selected None; Slept 100] n))
     = dispatched tr.
Proof.
  unfold selectorCalls, sleeps. rewrite dispatched_app, !List.filter_app, !length_app.
  induction n as [|n (IH1 & IH2 & IH3)]; cbn.
  - rewrite app_nil_r. repeat split; lia.
  - apply (f_equal (fun l => dispatched tr ++ l)) in IH3 as IH3'.
    repeat split; try lia.
    rewrite <- IH3 at 2. reflexivity.
Qed.

(** C7 (the source does not meet the claim).  Two tracked upstreams, the
    first one disabled with a CLOSED breaker, the second one failing before
    its first chunk, the client connected: after the one attempt the selector
    returns none, the re-probe finds the disabled upstream "available" and the
    loop goes round again, for ever.  After [n + 1] turns the loop is still
    running and has made [n + 1] selector calls and [n] sleeps, for every
    [n]: no bound in the number of tracked upstreams holds. *)
Theorem reprobe_never_terminates :
  forall n : nat,
    let final :=
      runLoop smart (repeat failingTurn (S n))
              (initialLoop (mkGateway toggledPool 0 0 false)) in
    finished final = false
    /\ selectorCalls (trace final) = S n
    /\ sleeps (trace final) = n
    /\ dispatched (trace final) = [1%nat]
    /\ enabled <$> trackedServices (gateway final) = [false; true].
Proof.
  intros n final. subst final. cbn [repeat runLoop].
  replace (finished (initialLoop (mkGateway toggledPool 0 0 false))) with false
    by (vm_compute; reflexivity).
  set (s1 := iteration smart failingTurn (initialLoop (mkGateway toggledPool 0 0 false))).
  assert (Hs1 : s1 = mkLoop (gateway s1) (triedIndices s1) 1 false false false
                            [Selected (Some 1%nat); Dispatched 1;
                             Failed 1 "First token timeout after 8000ms"])
    by (vm_compute; reflexivity).
  rewrite Hs1. subst s1.
  rewrite (reprobe_forever n).
  cbn [trace gateway].
  destruct (selectorCalls_reprobes n
              [Selected (Some 1%nat); Dispatched 1;
               Failed 1 "First token timeout after 8000ms"]) as (-> & -> & ->).
  split; [ | repeat split; vm_compute; reflexivity ].
  apply (reprobe_turn _).
Qed.

(** *** Cancellation *)

(** C8 (the source does not meet the claim).  One upstream yields ["Hel"],
    the request commits, and the client disconnects before the second chunk
    is looked at: the [for await] loop is left by its [break], and the code
    after it, seeing [started], records a success: [successCount] becomes 1
    and the breaker takes its success transition. *)
Theorem cancelled_after_commit_records_success :
  let pool := [freshTracked (mkService "Groq (Key #1)" groq) true] in
  let final := runLoop smart [disconnectingTurn] (initialLoop (mkGateway pool 0 0 false)) in
  aborted final = true
  /\ started final = true
  /\ trace final = [Selected (Some 0%nat); Dispatched 0; Committed 0; Metadata 0;
                    Chunk 0 "Hel"; Succeeded 0]
  /\ (successCount ∘ metrics <$> trackedServices (gateway final)) = [1]
  /\ (failCount ∘ metrics <$> trackedServices (gateway final)) = [0].
Proof. repeat split; vm_compute; reflexivity. Qed.

(** ** In-flight accounting *)

(** C9 (the source does not meet the claim).  A valid chat request with
    ["stream": false] is answered, 200 when an adapter completes and 502 when
    none does, and [inFlightRequests], incremented on entry, is never
    decremented: it ends one above its value before the request. *)
Theorem non_streaming_request_leaks_in_flight :
  let pool := [freshTracked (mkService "Groq (Key #1)" groq) true] in
  let gw := mkGateway pool 0 0 false in
  let served := fetchChat "" (mkRequest None None (BodyJson nonStreamingBody)
                                        [answeringTurn] false) gw in
  let refused := fetchChat "" (mkRequest None None (BodyJson nonStreamingBody)
                                         [failingTurn] false) gw in
  (status <$> served.1 = Some 200 /\ inFlightRequests served.2 = inFlightRequests gw + 1)
  /\ (status <$> refused.1 = Some 502
      /\ inFlightRequests refused.2 = inFlightRequests gw + 1).
Proof. repeat split; vm_compute; reflexivity. Qed.

(** ** Message validation *)

Section Validation.

Lemma strictEquals_spec (v : JSValue) (s : string) :
  strictEquals v s = true <-> v = JString s.
Proof.
  destruct v; cbn; try (split; [ discriminate | congruence ]).
  rewrite String.eqb_eq. split; congruence.
Qed.

Lemma validRole_spec (v : JSValue) :
  existsb (strictEquals v) validRoles = true
  <-> exists role, v = JString role /\ IsRole role.
Proof.
  unfold validRoles, IsRole. cbn. rewrite orb_false_r, !orb_true_iff.
  rewrite !strictEquals_spec. split.
  - intros [-> | [-> | ->]]; eexists; split; eauto.
  - intros (role & -> & [-> | [-> | ->]]); auto.
Qed.

Lemma isValidPart_spec (part : JSValue) :
  isValidPart part = true <-> ContentPart part.
Proof.
  unfold isValidPart. split.
  - destruct part as [ | | | | | |fields]; try discriminate. cbn [isObjectLike negb].
    destruct (strictEquals (getProp (JObject fields) "type") "text"
              && isString (getProp (JObject fields) "text")) eqn:Htext.
    + intros _. apply andb_true_iff in Htext as [Hty Htx].
      apply strictEquals_spec in Hty.
      destruct (getProp (JObject fields) "text") as [ | | | |text| | ] eqn:E;
        try discriminate Htx.
      now apply (TextPart fields text).
    + destruct (strictEquals (getProp (JObject fields) "type") "image_url"
                && isObjectLike (getProp (JObject fields) "image_url")) eqn:Himg;
        [ | discriminate ].
      intros _. apply andb_true_iff in Himg as [Hty Him].
      apply strictEquals_spec in Hty. now apply ImagePart.
  - intros [fields text Hty Htx | fields Hty Him]; cbn [isObjectLike negb].
    + now rewrite Hty, Htx.
    + rewrite Hty, Him. cbn. reflexivity.
Qed.

Lemma isValidMessage_spec (m : JSValue) :
  isValidMessage m = true <-> ChatMessage m.
Proof.
  unfold isValidMessage. split.
  - destruct m as [ | | | | |items|fields]; try discriminate.
    cbn [isObjectLike negb].
    destruct (existsb (strictEquals (getProp (JObject fields) "role")) validRoles)
      eqn:Hrole; [ | discriminate ].
    apply validRole_spec in Hrole as (role & Hrole & Hin). cbn [negb].
    destruct (getProp (JObject fields) "content") as [ | | | |text|parts| ] eqn:Hc;
      try discriminate.
    + intros _. now apply (TextMessage fields role text).
    + intros Hparts. apply (PartsMessage fields role parts); auto.
      apply Forall_forall. intros part Hin'.
      apply isValidPart_spec.
      rewrite forallb_forall in Hparts. apply Hparts.
      now apply list_elem_of_In.
  - intros [fields role text Hrole Hin Hc | fields role parts Hrole Hin Hc Hparts];
      cbn [isObjectLike negb].
    + assert (Hr : existsb (strictEquals (getProp (JObject fields) "role")) validRoles = true)
        by (apply validRole_spec; eauto).
      now rewrite Hr, Hc.
    + assert (Hr : existsb (strictEquals (getProp (JObject fields) "role")) validRoles = true)
        by (apply validRole_spec; eauto).
      rewrite Hr, Hc. cbn [negb].
      apply forallb_forall. intros part Hin'.
      apply isValidPart_spec. rewrite Forall_forall in Hparts.
      now apply Hparts, list_elem_of_In.
Qed.

Lemma messagesAccepted_spec (messages : JSValue) :
  messagesAccepted messages = true
  <-> exists items, messages = JArray items /\ Forall ChatMessage items.
Proof.
  unfold messagesAccepted. split.
  - destruct messages as [ | | | | |items| ]; try discriminate.
    intros H. exists items. split; [ reflexivity | ].
    apply Forall_forall. intros m Hin. apply isValidMessage_spec.
    rewrite forallb_forall in H. now apply H, list_elem_of_In.
  - intros (items & -> & H). apply forallb_forall. intros m Hin.
    apply isValidMessage_spec. rewrite Forall_forall in H.
    now apply H, list_elem_of_In.
Qed.

End Validation.

(** Whether the request carries the key that [CONFIG.masterKey] asks for. *)
Lemma authorised_passes (masterKey : string) (req : Request) :
  isEmpty masterKey = true \/ authorization req = Some ("Bearer " +:+ masterKey) ->
  negb (isEmpty masterKey)
  && negb (bool_decide (authorization req = Some ("Bearer " +:+ masterKey))) = false.
Proof.
  intros [-> | Hauth]; [ reflexivity | ].
  rewrite bool_decide_eq_true_2 by exact Hauth. now rewrite andb_false_r.
Qed.

(** C10.  For a chat request that reaches the validation (the server is not
    shutting down, the key is right, the body parses to a value other than
    [null]), the answer is a 400 exactly when the body's [messages] is not an
    array or one of its elements is not a valid message: an object whose
    [role] is system, user or assistant and whose [content] is a string or an
    array of text and image_url parts.  The empty array passes: the request is
    not answered 400 and the answer is the one the fail-over loop produces,
    streaming or not. *)
Theorem validation_rejects_exactly_invalid_messages :
  forall (masterKey : string) (req : Request) (gw : Gateway) (b : JSValue),
    isShuttingDown gw = false ->
    isEmpty masterKey = true \/ authorization req = Some ("Bearer " +:+ masterKey) ->
    body req = BodyJson b -> b <> JNull ->
    let answer := (fetchChat masterKey req gw).1 in
    let gw1 := withInFlight gw (inFlightRequests gw + 1) in
    let mode := parseRoutingMode (routingModeHeader req) in
    (status <$> answer = Some 400
     <-> ~ exists items, getProp b "messages" = JArray items
                         /\ Forall ChatMessage items)
    /\ (getProp b "messages" = JArray [] ->
        status <$> answer <> Some 400
        /\ (streamRequested b = true ->
            answer = Some (mkResponse 200 None
                             (trace (let s := runLoop mode (script req) (initialLoop gw1) in
                                     if finished s then closeStream s else s))))
        /\ (streamRequested b = false ->
            answer = match completeLoop mode (script req) (initialLoop gw1) with
                     | (s, Completed _) => Some (mkResponse 200 None (trace s))
                     | (s, Exhausted) => Some (mkResponse 502 None (trace s))
                     | (s, Pending) => None
                     end)).
Proof.
  intros masterKey req gw b Hup Hauth Hbody Hnull answer gw1 mode.
  assert (Hanswer :
    answer = if negb (messagesAccepted (getProp b "messages"))
             then Some (mkResponse 400 None [])
             else if negb (streamRequested b)
                  then match completeLoop mode (script req) (initialLoop gw1) with
                       | (s, Completed _) => Some (mkResponse 200 None (trace s))
                       | (s, Exhausted) => Some (mkResponse 502 None (trace s))
                       | (s, Pending) => None
                       end
                  else Some (mkResponse 200 None
                               (trace (let s := runLoop mode (script req) (initialLoop gw1) in
                                       if finished s then closeStream s else s)))).
  { subst answer. unfold fetchChat.
    rewrite Hup, (authorised_passes _ _ Hauth), Hbody.
    fold gw1 mode.
    destruct b; try congruence;
      (destruct (negb (messagesAccepted _)); [ reflexivity | ];
       destruct (negb (streamRequested _)); [ | reflexivity ];
       destruct (completeLoop _ _ _) as [st []]; reflexivity). }
  assert (Hnot400 :
    messagesAccepted (getProp b "messages") = true -> status <$> answer <> Some 400).
  { intros Hacc. rewrite Hanswer, Hacc. cbn [negb].
    destruct (negb (streamRequested b)); [ | discriminate ].
    destruct (completeLoop _ _ _) as [st []]; discriminate. }
  split.
  - rewrite <- messagesAccepted_spec. split.
    + intros H400 Hacc. now apply Hnot400.
    + intros Hrej. rewrite Hanswer.
      destruct (messagesAccepted (getProp b "messages")); [ now destruct Hrej | reflexivity ].
  - intros Hempty.
    assert (Hacc : messagesAccepted (getProp b "messages") = true)
      by now rewrite Hempty.
    split; [ now apply Hnot400 | ].
    rewrite Hanswer, Hacc. cbn [negb].
    split; intros ->; reflexivity.
Qed.

(** The validation law on a request whose [messages] is the empty array. *)
Lemma validation_rejects_exactly_invalid_messages_witness :
  status <$> (fetchChat "" (mkRequest None None
                              (BodyJson (JObject [("messages"%string, JArray [])]))
                              [failingTurn] false)
                        (mkGateway toggledPool 0 0 false)).1
  <> Some 400.
Proof.
  destruct (validation_rejects_exactly_invalid_messages ""
              (mkRequest None None (BodyJson (JObject [("messages"%string, JArray [])]))
                         [failingTurn] false)
              (mkGateway toggledPool 0 0 false)
              (JObject [("messages"%string, JArray [])])
              eq_refl (or_introl eq_refl) eq_refl ltac:(discriminate))
    as [_ Hempty].
  now destruct (Hempty eq_refl) as [Hnot _].
Defined.

(* ================================================================== *)
(** * Part III: further properties of the code *)
(* ================================================================== *)

(** ** Exponential back-off *)

(** From the first retry on the delay doubles from 100 ms (100, 200, 400,
    800, 1600) and is capped at 2000 ms from the sixth on; it always lies
    between 100 and 2000 ms and never decreases with the attempt number. *)
Theorem backoff_schedule :
  forall attempt : Z,
    1 <= attempt ->
    (attempt <= 5 ->
     (calculateBackoffDelay attempt == 100 * 2 ^ (attempt - 1))%Q)
    /\ (6 <= attempt -> (calculateBackoffDelay attempt == 2000)%Q)
    /\ (100 <= calculateBackoffDelay attempt <= 2000)%Q
    /\ (forall later : Z, attempt <= later ->
          (calculateBackoffDelay attempt <= calculateBackoffDelay later)%Q).
Proof.
  intros attempt Hpos.
  unfold calculateBackoffDelay, CONFIG.backoff.initialDelayMs,
    CONFIG.backoff.multiplier, CONFIG.backoff.maxDelayMs.
  assert (Hone : (1 <= 2 ^ (attempt - 1))%Q)
    by (apply Qpower_1_le; [ discriminate | lia ]).
  repeat split.
  - intros Hsmall. apply Q.min_l.
    assert (H : (2 ^ (attempt - 1) <= 2 ^ 4)%Q)
      by (apply Qpower_le_compat_l; [ lia | discriminate ]).
    change (2 ^ 4)%Q with 16%Q in H. lra.
  - intros Hlarge. apply Q.min_r.
    assert (H : (2 ^ 5 <= 2 ^ (attempt - 1))%Q)
      by (apply Qpower_le_compat_l; [ lia | discriminate ]).
    change (2 ^ 5)%Q with 32%Q in H. lra.
  - apply Q.min_glb; lra.
  - apply Q.le_min_r.
  - intros later Hlater. apply Q.min_le_compat_r.
    assert (H : (2 ^ (attempt - 1) <= 2 ^ (later - 1))%Q)
      by (apply Qpower_le_compat_l; [ lia | discriminate ]).
    lra.
Qed.

(** The schedule at the third retry. *)
Lemma backoff_schedule_witness : (calculateBackoffDelay 3 == 400)%Q.
Proof.
  destruct (backoff_schedule 3 ltac:(lia)) as (H & _).
  rewrite H by lia. reflexivity.
Defined.

(** ** Circuit breaker: invariant and cycles *)

(** A fresh breaker is well formed, and the availability check, the two
    recordings and the half-open bookkeeping of a dispatch keep a breaker
    well formed. *)
Theorem breaker_operations_keep_invariant :
  BreakerOk createInitialCircuitBreaker
  /\ forall (now : Z) (tracked : EnhancedTrackedService),
       BreakerOk (circuitBreaker tracked) ->
       BreakerOk (circuitBreaker (isServiceAvailable now tracked).2)
       /\ BreakerOk (circuitBreaker (recordSuccess tracked))
       /\ BreakerOk (circuitBreaker (recordFailure now tracked))
       /\ BreakerOk (circuitBreaker (markDispatched tracked)).
Proof.
  split; [ unfold BreakerOk; cbn; repeat split; (lia || congruence) | ].
  intros now [svc m [st f lft hoa] en] (Hf & Hh & Hc & Ho & Hz).
  cbn in Hf, Hh, Hc, Ho, Hz.
  unfold BreakerOk, isServiceAvailable, recordSuccess, recordFailure,
    markDispatched, CONFIG.circuitBreaker.failureThreshold in *.
  destruct st; cbn;
    repeat match goal with
           | |- context [if ?b then _ else _] => destruct b eqn:?; cbn
           end;
    repeat split; intros; try congruence; try lia;
    try (apply Hz; congruence);
    try match goal with H : (3 <=? _) = false |- _ => apply Z.leb_gt in H; lia end.
  all: try (specialize (Hc eq_refl); lia).
  all: now apply Ho.
Qed.

(** The invariant after a first failure of a fresh upstream. *)
Lemma breaker_operations_keep_invariant_witness :
  BreakerOk (circuitBreaker
               (recordFailure 5000
                  (freshTracked (mkService "Groq (Key #1)" groq) true))).
Proof.
  destruct breaker_operations_keep_invariant as [Hinit Hkeep].
  now destruct (Hkeep 5000 (freshTracked (mkService "Groq (Key #1)" groq) true) Hinit)
    as (_ & _ & H & _).
Defined.

Lemma recordFailures_open (nows : list Z) :
  forall tracked,
    state (circuitBreaker tracked) = OPEN ->
    state (circuitBreaker (recordFailures nows tracked)) = OPEN.
Proof.
  induction nows as [|now nows IH]; intros tracked Hst; cbn; [ done | ].
  apply IH. unfold recordFailure. now rewrite Hst.
Qed.

(** Failures in a row open a CLOSED breaker exactly when they bring its
    failure count to the threshold: after [k] recorded failures a breaker that
    was CLOSED with [f] failures is OPEN if [f + k >= 3], and otherwise still
    CLOSED with [f + k] failures; successes in between are what keeps it
    closed. *)
Theorem consecutive_failures_open_breaker :
  forall (nows : list Z) (tracked : EnhancedTrackedService),
    state (circuitBreaker tracked) = CLOSED ->
    0 <= failures (circuitBreaker tracked) < 3 ->
    let after := circuitBreaker (recordFailures nows tracked) in
    let total := failures (circuitBreaker tracked) + Z.of_nat (length nows) in
    (3 <= total -> state after = OPEN /\ lastFailureTime after = last nows)
    /\ (total < 3 -> state after = CLOSED /\ failures after = total).
Proof.
  induction nows as [|now nows IH] using rev_ind; intros tracked Hst Hf after total.
  - subst after total. cbn. split; [ lia | ]. intros _. split; [ done | lia ].
  - subst after total. unfold recordFailures in *.
    rewrite fold_left_app, length_app, last_snoc. cbn [fold_left length].
    destruct (IH tracked Hst Hf) as [Hopen Hclosed].
    set (before := fold_left (fun t now0 => recordFailure now0 t) nows tracked) in *.
    destruct (Z_lt_le_dec (failures (circuitBreaker tracked) + Z.of_nat (length nows)) 3)
      as [Hlt | Hge].
    + destruct (Hclosed Hlt) as [Hs Hfail].
      unfold recordFailure. rewrite Hs. cbn. rewrite Hfail.
      unfold CONFIG.circuitBreaker.failureThreshold.
      split; intros H.
      * destruct (Z.leb_spec 3 (failures (circuitBreaker tracked)
                                + Z.of_nat (length nows) + 1)); [ done | lia ].
      * destruct (Z.leb_spec 3 (failures (circuitBreaker tracked)
                                + Z.of_nat (length nows) + 1)); [ lia | ].
        split; [ done | lia ].
    + destruct (Hopen Hge) as [Hs _].
      unfold recordFailure. rewrite Hs. cbn.
      split; [ done | lia ].
Qed.

(** Three failures of a fresh upstream. *)
Lemma consecutive_failures_open_breaker_witness :
  state (circuitBreaker
           (recordFailures [1000; 2000; 3000]
              (freshTracked (mkService "Groq (Key #1)" groq) true))) = OPEN.
Proof.
  destruct (consecutive_failures_open_breaker [1000; 2000; 3000]
              (freshTracked (mkService "Groq (Key #1)" groq) true)
              eq_refl ltac:(cbn; lia)) as [H _].
  now destruct (H ltac:(cbn; lia)).
Defined.

(** The recovery probe.  When an OPEN breaker's timeout has elapsed the
    availability check moves it to HALF_OPEN, where it stays available until
    an attempt is dispatched; the dispatch uses up the single half-open
    attempt, so that further checks answer false whatever the time; a
    recorded success then closes the breaker with a clean failure count, and
    a recorded failure re-opens it for a full reset timeout. *)
Theorem half_open_probe_cycle :
  forall (now now' now'' : Z) (tracked : EnhancedTrackedService) (t0 : Z),
    state (circuitBreaker tracked) = OPEN ->
    lastFailureTime (circuitBreaker tracked) = Some t0 -> t0 <> 0 ->
    60000 <= now - t0 ->
    let probe := (isServiceAvailable now tracked).2 in
    let busy := markDispatched probe in
    state (circuitBreaker probe) = HALF_OPEN
    /\ isServiceAvailable now' probe = (true, probe)
    /\ isServiceAvailable now' busy = (false, busy)
    /\ circuitBreaker (recordSuccess busy) = mkBreaker CLOSED 0 (Some t0) 0
    /\ circuitBreaker (recordFailure now'' busy)
       = mkBreaker OPEN (failures (circuitBreaker tracked)) (Some now'') 0
    /\ (now'' <> 0 ->
        (isServiceAvailable now' (recordFailure now'' busy)).1 = true
        <-> 60000 <= now' - now'').
Proof.
  intros now now' now'' [svc m [st f lft hoa] en] t0 Hst Hlft Ht0 Hel probe busy.
  cbn in Hst, Hlft. subst st lft.
  subst busy probe.
  unfold isServiceAvailable, CONFIG.circuitBreaker.resetTimeoutMs. cbn.
  destruct (Z.eqb_spec t0 0) as [|_]; [ done | ]. cbn.
  destruct (Z.leb_spec 60000 (now - t0)) as [_|]; [ | lia ]. cbn.
  repeat split; intros.
  - destruct (Z.eqb_spec now'' 0) as [|_]; [ done | ]. cbn in *.
    destruct (Z.leb_spec 60000 (now' - now'')); [ done | discriminate ].
  - destruct (Z.eqb_spec now'' 0) as [|_]; [ done | ]. cbn.
    destruct (Z.leb_spec 60000 (now' - now'')); [ done | lia ].
Qed.

(** The probe cycle of a breaker that opened at 5 s, checked at 70 s. *)
Lemma half_open_probe_cycle_witness :
  let tracked :=
    mkTracked (mkService "Groq (Key #1)" groq) createInitialMetrics
              (mkBreaker OPEN 3 (Some 5000) 0) true in
  isServiceAvailable 70001 (markDispatched (isServiceAvailable 70000 tracked).2)
  = (false, markDispatched (isServiceAvailable 70000 tracked).2).
Proof.
  intros tracked.
  now destruct (half_open_probe_cycle 70000 70001 80000 tracked 5000
                  eq_refl eq_refl ltac:(lia) ltac:(lia)) as (_ & _ & H & _).
Defined.

(** ** Selector: candidates and effects *)

Lemma isServiceAvailable_probed (now : Z) (tracked : EnhancedTrackedService) :
  Probed tracked (isServiceAvailable now tracked).2.
Proof.
  unfold Probed, isServiceAvailable.
  destruct (state (circuitBreaker tracked)) eqn:Hst; cbn; auto.
  destruct (_ && _); cbn; auto.
Qed.

(** The entries of [available] are exactly the eligible upstreams, each with
    its position and in its state after the check; the pool afterwards is
    the pool before with some OPEN breakers moved to HALF_OPEN. *)
Lemma availableFrom_lookup (excl : gset nat) (now : Z)
    (services : list EnhancedTrackedService) :
  forall idx avail services',
    availableFrom excl now idx services = (avail, services') ->
    (forall c, c ∈ avail <->
       exists i tracked,
         services !! i = Some tracked /\ index c = (idx + i)%nat
         /\ Eligible excl now (idx + i) tracked
         /\ ts c = (isServiceAvailable now tracked).2)
    /\ Forall2 Probed services services'.
Proof.
  induction services as [|tracked rest IH]; intros idx avail services' H; cbn in H.
  - injection H as <- <-. split; [ | constructor ].
    intros c. split; [ intros Hc; inversion Hc | intros (i & t & Hl & _); done ].
  - destruct (availableFrom excl now (S idx) rest) as [avail0 rest'] eqn:Hrest.
    destruct (IH _ _ _ Hrest) as [Hmem Hpool].
    assert (Htail : forall c, c ∈ avail0 <->
              exists i t, (tracked :: rest) !! S i = Some t
                          /\ index c = (idx + S i)%nat
                          /\ Eligible excl now (idx + S i) t
                          /\ ts c = (isServiceAvailable now t).2).
    { intros c. rewrite Hmem. split; intros (i & t & Hl & Hi & He & Hts);
        exists i, t; cbn in *;
        replace (idx + S i)%nat with (S idx + i)%nat in * by lia; auto. }
    assert (Hskip : ~ Eligible excl now (idx + 0) tracked ->
              forall c, c ∈ avail0 <->
                exists i t, (tracked :: rest) !! i = Some t
                            /\ index c = (idx + i)%nat
                            /\ Eligible excl now (idx + i) t
                            /\ ts c = (isServiceAvailable now t).2).
    { intros Hne c. rewrite Htail. split.
      - intros (i & t & ?). exists (S i), t. auto.
      - intros ([|i] & t & Hl & Hi & He & Hts); [ | now exists i, t ].
        cbn in Hl. injection Hl as <-. destruct (Hne He). }
    unfold Eligible in Hskip. rewrite Nat.add_0_r in Hskip.
    case_bool_decide as Hex.
    { injection H as <- <-. split; [ apply Hskip; tauto | ].
      constructor; [ now left | done ]. }
    destruct (enabled tracked) eqn:Hen; cbn in H.
    2:{ injection H as <- <-. split; [ apply Hskip; intros (_ & ? & _); done | ].
        constructor; [ now left | done ]. }
    pose proof (isServiceAvailable_probed now tracked) as Hprobed.
    destruct (isServiceAvailable now tracked) as [ok tracked'] eqn:Hsa.
    cbn in Hprobed. injection H as <- <-.
    split; [ | constructor; done ].
    destruct ok.
    + intros c. rewrite elem_of_cons, Htail. split.
      * intros [-> | (i & t & ?)]; [ | exists (S i), t; auto ].
        exists 0%nat, tracked. unfold Eligible. cbn.
        rewrite Nat.add_0_r, !Hsa. repeat split; auto.
      * intros ([|i] & t & Hl & Hi & He & Hts); [ left | right; now exists i, t ].
        cbn in Hl. injection Hl as <-. rewrite Hsa in Hts. cbn in Hts.
        rewrite Nat.add_0_r in Hi. destruct c; cbn in *; congruence.
    + apply Hskip. intros (_ & _ & Hav). cbn in Hav. discriminate Hav.
Qed.

(** With a candidate at hand every routing mode returns one. *)
Lemma getNextService_some (excl : gset nat) (mode : RoutingMode) (now : Z)
    (random : Q) (gw : Gateway) :
  (availableFrom excl now 0 (trackedServices gw)).1 <> [] ->
  exists c, c ∈ (availableFrom excl now 0 (trackedServices gw)).1
            /\ (getNextService excl mode now random gw).1 = Some (index c).
Proof.
  unfold getNextService.
  destruct (availableFrom excl now 0 (trackedServices gw)) as [avail services'].
  cbn [fst]. intros Hne.
  destruct avail as [|c1 [|c2 rest]]; [ done | | ].
  { exists c1. split; [ left | reflexivity ]. }
  set (avail := c1 :: c2 :: rest) in *.
  set (scored := sortBy byScoreDesc
                   (map (fun c => mkScored c (calculateHealthScore now (ts c))) avail)).
  assert (Hscored : forall s, s ∈ scored -> candidate s ∈ avail).
  { intros s Hs. subst scored. rewrite sortBy_perm in Hs.
    apply list_elem_of_fmap in Hs as (c & -> & Hc). exact Hc. }
  assert (Hhead : exists s, head scored = Some s).
  { destruct scored eqn:E; [ | eauto ].
    apply (f_equal length) in E. subst scored.
    rewrite sortBy_length, length_map in E. discriminate E. }
  destruct Hhead as [s0 Hs0].
  destruct mode.
  - destruct (draw _ scored) as [s|] eqn:Hd; cbn [fst].
    + exists (candidate s). split; [ | reflexivity ].
      apply Hscored. eapply draw_elem, Hd.
    + exists (candidate s0). rewrite Hs0. split; [ | reflexivity ].
      apply Hscored. eapply head_Some_elem_of, Hs0.
  - cbn [fst]. exists (candidate s0). rewrite Hs0. split; [ | reflexivity ].
    apply Hscored. eapply head_Some_elem_of, Hs0.
  - cbn [fst].
    assert (Hlt : (roundRobinPointer gw mod length (sortBy byIndex avail)
                   < length (sortBy byIndex avail))%nat).
    { apply Nat.mod_upper_bound. rewrite sortBy_length. discriminate. }
    apply lookup_lt_is_Some in Hlt as [c Hc].
    exists c. rewrite Hc. split; [ | reflexivity ].
    rewrite <- (sortBy_perm byIndex). eapply list_elem_of_lookup_2, Hc.
Qed.

(** The selector returns none exactly when no tracked upstream is at once
    not excluded, enabled and available; what it returns is the position of
    such an upstream: a disabled upstream is never selected, whatever its
    health score and the routing mode. *)
Theorem selector_returns_eligible_upstream :
  forall (excl : gset nat) (mode : RoutingMode) (now : Z) (random : Q)
         (gw : Gateway),
    let choice := (getNextService excl mode now random gw).1 in
    (choice = None <->
     forall idx tracked, trackedServices gw !! idx = Some tracked ->
                         ~ Eligible excl now idx tracked)
    /\ (forall idx, choice = Some idx ->
          exists tracked, trackedServices gw !! idx = Some tracked
                          /\ Eligible excl now idx tracked).
Proof.
  intros excl mode now random gw choice.
  destruct (availableFrom excl now 0 (trackedServices gw)) as [avail services'] eqn:Hav.
  destruct (availableFrom_lookup _ _ _ _ _ _ Hav) as [Hmem _].
  pose proof (getNextService_some excl mode now random gw) as Hsome.
  rewrite Hav in Hsome. cbn [fst] in Hsome.
  assert (Hin : forall idx, choice = Some idx ->
            exists c, c ∈ avail /\ index c = idx).
  { intros idx Hc.
    destruct avail as [|c0 rest] eqn:E.
    - subst choice. unfold getNextService in Hc. rewrite Hav in Hc. discriminate Hc.
    - destruct (Hsome ltac:(discriminate)) as (c & Hcin & Hcc).
      fold choice in Hcc. exists c. split; [ done | congruence ]. }
  split.
  - split.
    + intros Hnone idx tracked Hl Hel.
      assert (Hc : mkCandidate (isServiceAvailable now tracked).2 idx ∈ avail)
        by (apply Hmem; exists idx, tracked; cbn; auto).
      destruct avail as [|c0 rest0]; [ inversion Hc | ].
      destruct (Hsome ltac:(discriminate)) as (c1 & _ & Hcc).
      fold choice in Hcc. congruence.
    + intros Hnone. destruct choice as [idx|] eqn:Hc; [ | reflexivity ].
      destruct (Hin idx eq_refl) as (c & Hcin & <-).
      apply Hmem in Hcin as (i & t & Hl & Hi & He & _). cbn in Hi, He.
      rewrite Hi. now destruct (Hnone i t).
  - intros idx Hc. destruct (Hin idx Hc) as (c & Hcin & <-).
    apply Hmem in Hcin as (i & t & Hl & Hi & He & _). cbn in Hi, He.
    rewrite Hi. eauto.
Qed.

(** A selection changes nothing but breakers, which it may move from OPEN to
    HALF_OPEN, and, in round-robin mode, the cursor: names, metrics, enabled
    flags, the size of the pool, the in-flight counter and the shutdown latch
    are as before. *)
Theorem selector_only_probes_breakers :
  forall (excl : gset nat) (mode : RoutingMode) (now : Z) (random : Q)
         (gw : Gateway),
    let gw' := (getNextService excl mode now random gw).2 in
    Forall2 Probed (trackedServices gw) (trackedServices gw')
    /\ inFlightRequests gw' = inFlightRequests gw
    /\ isShuttingDown gw' = isShuttingDown gw
    /\ (mode <> round_robin -> roundRobinPointer gw' = roundRobinPointer gw).
Proof.
  intros excl mode now random gw gw'. subst gw'. unfold getNextService.
  destruct (availableFrom excl now 0 (trackedServices gw)) as [avail services'] eqn:Hav.
  destruct (availableFrom_lookup _ _ _ _ _ _ Hav) as [_ Hpool].
  destruct avail as [|c1 [|c2 rest]]; [ now cbn | now cbn | ].
  destruct mode; cbn; try (destruct (draw _ _)); cbn; repeat split; auto; done.
Qed.

(** ** The streaming loop and the process-wide state *)

(** What a selection leaves alone, for the loops that call it. *)
Lemma getNextService_frame (excl : gset nat) (mode : RoutingMode) (now : Z)
    (random : Q) (gw : Gateway) :
  Forall2 Probed (trackedServices gw)
          (trackedServices (getNextService excl mode now random gw).2)
  /\ isShuttingDown (getNextService excl mode now random gw).2 = isShuttingDown gw.
Proof.
  unfold getNextService.
  destruct (availableFrom excl now 0 (trackedServices gw)) as [avail services'] eqn:Hav.
  destruct (availableFrom_lookup _ _ _ _ _ _ Hav) as [_ Hpool].
  destruct avail as [|c1 [|c2 rest]]; [ now cbn | now cbn | ].
  destruct mode; cbn; try (destruct (draw _ _)); cbn; split; auto.
Qed.

Lemma updateService_fields (idx : nat)
    (f : EnhancedTrackedService -> EnhancedTrackedService) (gw : Gateway) :
  inFlightRequests (updateService idx f gw) = inFlightRequests gw
  /\ isShuttingDown (updateService idx f gw) = isShuttingDown gw
  /\ roundRobinPointer (updateService idx f gw) = roundRobinPointer gw
  /\ length (trackedServices (updateService idx f gw)) = length (trackedServices gw).
Proof. unfold updateService; cbn. now rewrite length_alter. Qed.

Lemma someReopened_length (tried : gset nat) (now : Z)
    (services : list EnhancedTrackedService) :
  forall idx, length (someReopened tried now idx services).2 = length services.
Proof.
  induction services as [|tracked rest IH]; intros idx; cbn; [ done | ].
  specialize (IH (S idx)).
  destruct (someReopened tried now (S idx) rest) as [found rest'].
  case_bool_decide; cbn in *; [ now rewrite IH | ].
  destruct (isServiceAvailable now tracked) as [[] tracked']; cbn; [ done | ].
  now rewrite IH.
Qed.

(** An attempt touches the pool only through updates in place. *)
Lemma attempt_gateway (e : IterEnv) (idx : nat) (s : LoopState) :
  inFlightRequests (gateway (attempt e idx s)) = inFlightRequests (gateway s)
  /\ isShuttingDown (gateway (attempt e idx s)) = isShuttingDown (gateway s)
  /\ length (trackedServices (gateway (attempt e idx s)))
     = length (trackedServices (gateway s))
  /\ triedIndices (attempt e idx s) = {[idx]} ∪ triedIndices s.
Proof.
  unfold attempt.
  destruct (chunks e) as [|[first gone] rest].
  - destruct (ending e); [ destruct (aborted s || abortedAtEnd e) | ]; cbn;
      rewrite ?length_alter; done.
  - destruct (aborted s || gone); cbn; rewrite ?length_alter; [ done | ].
    destruct (forAwait idx _ false rest (ending e)) as [[[frames started1] aborted1] thrown].
    destruct thrown; [ | destruct started1 ]; cbn; rewrite ?length_alter; done.
Qed.

(** A turn of the loop leaves the in-flight counter, the shutdown latch and
    the size of the pool alone, and what it adds to the tried set is a
    position of the pool. *)
Lemma iteration_gateway (mode : RoutingMode) (e : IterEnv) (s : LoopState) :
  inFlightRequests (gateway (iteration mode e s)) = inFlightRequests (gateway s)
  /\ isShuttingDown (gateway (iteration mode e s)) = isShuttingDown (gateway s)
  /\ length (trackedServices (gateway (iteration mode e s)))
     = length (trackedServices (gateway s))
  /\ (forall idx, idx ∈ triedIndices (iteration mode e s) ->
        idx ∈ triedIndices s \/ (idx < length (trackedServices (gateway s)))%nat).
Proof.
  unfold iteration.
  destruct (getNextService (triedIndices s) mode (selectNow e) (random e) (gateway s))
    as [choice gw1] eqn:Hsel.
  destruct (getNextService_spec _ _ _ _ _ _ _ Hsel) as (Hlen & Hfl & Hchoice).
  pose proof (getNextService_frame (triedIndices s) mode (selectNow e)
                (random e) (gateway s)) as Heff.
  rewrite Hsel in Heff. cbn in Heff. destruct Heff as (_ & Hdown).
  destruct choice as [idx|].
  - destruct (Hchoice idx eq_refl) as [_ Hrange].
    set (s1 := mkLoop gw1 (triedIndices s) (attemptNumber s) (started s)
                      (aborted s) false (trace s ++ [Selected (Some idx)])).
    destruct (attempt_gateway e idx s1) as (Ha & Hb & Hc & Hd).
    cbn [gateway triedIndices s1] in Ha, Hb, Hc, Hd.
    destruct (exited (attempt e idx s1)); cbn [gateway triedIndices];
      rewrite Ha, Hb, Hc, Hd, Hfl, Hdown, Hlen; repeat split;
      intros i Hi; apply elem_of_union in Hi as [Hi | Hi]; auto;
      apply elem_of_singleton in Hi as ->; auto.
  - destruct (0 <? attemptNumber s).
    + pose proof (someReopened_length (triedIndices s) (reprobeNow e)
                    (trackedServices gw1) 0) as Hre.
      destruct (someReopened (triedIndices s) (reprobeNow e) 0 (trackedServices gw1))
        as [reopened services'].
      cbn in Hre. destruct reopened; cbn; rewrite Hre; auto.
    + cbn. auto.
Qed.

Lemma runLoop_gateway (mode : RoutingMode) (envs : list IterEnv) :
  forall s,
    (forall idx, idx ∈ triedIndices s -> (idx < length (trackedServices (gateway s)))%nat) ->
    let final := runLoop mode envs s in
    inFlightRequests (gateway final) = inFlightRequests (gateway s)
    /\ isShuttingDown (gateway final) = isShuttingDown (gateway s)
    /\ length (trackedServices (gateway final)) = length (trackedServices (gateway s))
    /\ (forall idx, idx ∈ triedIndices final ->
          (idx < length (trackedServices (gateway s)))%nat).
Proof.
  induction envs as [|e envs IH]; intros s Hrange; cbn; [ auto | ].
  destruct (finished s); [ auto | ].
  destruct (iteration_gateway mode e s) as (Ha & Hb & Hc & Hd).
  destruct (IH (iteration mode e s)) as (Ha' & Hb' & Hc' & Hd').
  { intros idx Hi. rewrite Hc. destruct (Hd idx Hi); auto. }
  rewrite Ha', Hb', Hc', Ha, Hb, Hc. repeat split.
  intros idx Hi. rewrite <- Hc. auto.
Qed.

(** However the adapters, the clock and the client behave, a streaming
    request dispatches to positions of the pool only, to each at most once,
    hence to at most as many upstreams as are tracked; the pool keeps its
    size, and the loop leaves the in-flight counter and the shutdown latch
    alone. *)
Theorem streaming_loop_dispatch_bound :
  forall (mode : RoutingMode) (gw : Gateway) (envs : list IterEnv),
    let final := runLoop mode envs (initialLoop gw) in
    let n := length (trackedServices gw) in
    Forall (fun idx => (idx < n)%nat) (dispatched (trace final))
    /\ NoDup (dispatched (trace final))
    /\ (length (dispatched (trace final)) <= n)%nat
    /\ (size (triedIndices final) <= n)%nat
    /\ length (trackedServices (gateway final)) = n
    /\ inFlightRequests (gateway final) = inFlightRequests gw
    /\ isShuttingDown (gateway final) = isShuttingDown gw.
Proof.
  intros mode gw envs final n.
  destruct (runLoop_gateway mode envs (initialLoop gw)) as (Ha & Hb & Hc & Hd).
  { intros idx Hi. cbn in Hi. now apply not_elem_of_empty in Hi. }
  destruct (runLoop_invariant mode envs _ (initialLoop_invariant gw))
    as [(Hnd & Hin & _) _].
  fold final in Ha, Hb, Hc, Hd, Hnd, Hin. cbn in Ha, Hb, Hc, Hd. fold n in Hc, Hd.
  assert (Hsize : (size (triedIndices final) <= n)%nat).
  { rewrite <- (size_set_seq (C:=gset nat) 0 n).
    apply subseteq_size. intros idx Hi. apply elem_of_set_seq.
    specialize (Hd idx Hi). lia. }
  repeat split; auto.
  - apply Forall_forall. intros idx Hi. auto.
  - rewrite <- (size_list_to_set (C:=gset nat) _ Hnd).
    etransitivity; [ | exact Hsize ].
    apply subseteq_size. intros idx Hi. apply elem_of_list_to_set in Hi. auto.
Qed.

(** ** The chat endpoint and the in-flight counter *)

Lemma in_flight_restored (gw : Gateway) :
  withInFlight (withInFlight gw (inFlightRequests gw + 1))
               (inFlightRequests (withInFlight gw (inFlightRequests gw + 1)) - 1)
  = gw.
Proof. destruct gw; unfold withInFlight; cbn. f_equal. lia. Qed.

(** A chat request that is turned away (503 while shutting down, 401 on a
    wrong key, 500 on an unreadable body, 400 on invalid messages) leaves the
    whole process state, in-flight counter included, exactly as it was.  A
    streaming request that is accepted holds one in-flight slot while its
    loop runs and gives it back, once, as soon as the loop is over or the
    consumer has cancelled the stream, also when both happen. *)
Theorem chat_endpoint_in_flight_balance :
  forall (masterKey : string) (req : Request) (gw : Gateway),
    let answer := (fetchChat masterKey req gw).1 in
    let gw' := (fetchChat masterKey req gw).2 in
    (isShuttingDown gw = true ->
     answer = Some (mkResponse 503 (Some "30"%string) []) /\ gw' = gw)
    /\ (forall r, answer = Some r ->
          status r = 503 \/ status r = 401 \/ status r = 500 \/ status r = 400 ->
          gw' = gw)
    /\ (forall b,
          isShuttingDown gw = false ->
          isEmpty masterKey = true
          \/ authorization req = Some ("Bearer " +:+ masterKey) ->
          body req = BodyJson b -> b <> JNull ->
          messagesAccepted (getProp b "messages") = true ->
          streamRequested b = true ->
          let s := runLoop (parseRoutingMode (routingModeHeader req)) (script req)
                           (initialLoop (withInFlight gw (inFlightRequests gw + 1))) in
          exists r, answer = Some r /\ status r = 200
            /\ inFlightRequests gw'
               = if finished s || cancelled req then inFlightRequests gw
                 else inFlightRequests gw + 1).
Proof.
  intros masterKey req gw answer gw'. subst answer gw'.
  split; [ | split ].
  - intros Hdown. unfold fetchChat. now rewrite Hdown.
  - intros r Hr Hst. unfold fetchChat in *.
    destruct (isShuttingDown gw); [ reflexivity | ].
    destruct (_ && _); [ reflexivity | ].
    pose proof (in_flight_restored gw) as Hback.
    destruct (body req) as [|b]; [ exact Hback | ].
    destruct b;
      try exact Hback;
      (destruct (negb (messagesAccepted _)); [ exact Hback | ];
       exfalso;
       destruct (negb (streamRequested _));
       [ destruct (completeLoop _ _ _) as [st []]; cbn in Hr;
         try discriminate Hr; injection Hr as <-; cbn in Hst; lia
       | cbn in Hr; injection Hr as <-; cbn in Hst; lia ]).
  - intros b Hup Hauth Hbody Hnull Hacc Hstream s.
    unfold fetchChat. rewrite Hup, (authorised_passes _ _ Hauth), Hbody.
    destruct (runLoop_gateway (parseRoutingMode (routingModeHeader req))
                (script req)
                (initialLoop (withInFlight gw (inFlightRequests gw + 1))))
      as (Hfl & _).
    { intros idx Hi. cbn in Hi. now apply not_elem_of_empty in Hi. }
    fold s in Hfl. cbn in Hfl.
    assert (Hgoal :
      let s' := if finished s then closeStream s else s in
      let afterCancel := if cancelled req then decrementInFlight (false, gateway s')
                         else (false, gateway s') in
      let afterStart := if finished s then decrementInFlight afterCancel
                        else afterCancel in
      inFlightRequests afterStart.2
      = if finished s || cancelled req then inFlightRequests gw
        else inFlightRequests gw + 1).
    { destruct (finished s), (cancelled req); cbn; rewrite Hfl; lia. }
    destruct b; try congruence; rewrite Hacc, Hstream; cbn [negb];
      (eexists; split; [ reflexivity | split; [ reflexivity | exact Hgoal ] ]).
Qed.

(** ** Success counters along the streaming loop *)

Lemma probed_metrics (before after : EnhancedTrackedService) :
  Probed before after -> metrics after = metrics before.
Proof. now intros [-> | [_ ->]]. Qed.

Lemma someReopened_probed (tried : gset nat) (now : Z)
    (services : list EnhancedTrackedService) :
  forall idx, Forall2 Probed services (someReopened tried now idx services).2.
Proof.
  induction services as [|tracked rest IH]; intros idx; cbn; [ constructor | ].
  specialize (IH (S idx)).
  destruct (someReopened tried now (S idx) rest) as [found rest'].
  assert (Hrefl : Forall2 Probed rest rest).
  { clear. induction rest; constructor; [ now left | done ]. }
  case_bool_decide; cbn in *; [ constructor; [ now left | done ] | ].
  pose proof (isServiceAvailable_probed now tracked) as Hp.
  destruct (isServiceAvailable now tracked) as [[] tracked']; cbn in *;
    constructor; done.
Qed.

Lemma probed_successCountAt (gw gw' : Gateway) (idx : nat) :
  Forall2 Probed (trackedServices gw) (trackedServices gw') ->
  successCountAt gw' idx = successCountAt gw idx.
Proof.
  unfold successCountAt. intros Hp.
  generalize dependent idx.
  induction Hp as [|t t' l l' Ht _ IH]; intros idx; [ done | ].
  destruct idx as [|idx]; cbn; [ | apply IH ].
  now rewrite (probed_metrics _ _ Ht).
Qed.

(** An update in place moves the success counter at its position by what
    the update adds, and no other. *)
Lemma successCountAt_update (idx i : nat) (d : Z)
    (f : EnhancedTrackedService -> EnhancedTrackedService) (gw : Gateway) :
  (forall t, successCount (metrics (f t)) = successCount (metrics t) + d) ->
  successCountAt (updateService idx f gw) i
  = (fun c => c + (if (i =? idx)%nat then d else 0)) <$> successCountAt gw i.
Proof.
  intros Hf. unfold successCountAt, updateService. cbn [trackedServices withServices].
  rewrite list_lookup_alter.
  destruct (Nat.eqb_spec i idx) as [-> | Hne].
  - rewrite decide_True by reflexivity.
    destruct (trackedServices gw !! idx) as [t|]; cbn; [ | done ].
    now rewrite Hf.
  - rewrite decide_False by auto.
    destruct (trackedServices gw !! i) as [t|]; cbn; [ | done ].
    f_equal. lia.
Qed.

Lemma markDispatched_successCount (t : EnhancedTrackedService) :
  successCount (metrics (markDispatched t)) = successCount (metrics t) + 0.
Proof.
  unfold markDispatched. destruct (state (circuitBreaker t)); cbn; lia.
Qed.

Lemma markFailure_successCount (start now : Z) (msg : string)
    (t : EnhancedTrackedService) :
  successCount (metrics (markFailure start now msg t)) = successCount (metrics t) + 0.
Proof.
  unfold markFailure, recordFailure. cbn.
  destruct (state (circuitBreaker t)); cbn; lia.
Qed.

Lemma markSuccess_successCount (start now : Z) (t : EnhancedTrackedService) :
  successCount (metrics (markSuccess start now t)) = successCount (metrics t) + 1.
Proof.
  unfold markSuccess, recordSuccess. cbn.
  destruct (state (circuitBreaker t)); cbn; lia.
Qed.

Lemma recorded_app (l1 l2 : list Event) (i : nat) :
  recorded (l1 ++ l2) i = recorded l1 i + recorded l2 i.
Proof.
  unfold recorded. rewrite successes_app, List.filter_app, length_app. lia.
Qed.

Lemma recorded_none (l : list Event) (i : nat) :
  successes l = [] -> recorded l i = 0.
Proof. unfold recorded. now intros ->. Qed.

Lemma recorded_succeeded (idx i : nat) :
  recorded [Succeeded idx] i = if (i =? idx)%nat then 1 else 0.
Proof. unfold recorded. cbn. now destruct (i =? idx)%nat. Qed.

(** The ledger of one attempt: its success counter moves exactly when the
    attempt logs a success, and at the attempt's position. *)
Lemma attempt_ledger (gw0 : Gateway) (e : IterEnv) (idx : nat) (s : LoopState) :
  SuccessLedger gw0 s -> SuccessLedger gw0 (attempt e idx s).
Proof.
  intros Hs i. specialize (Hs i). unfold attempt.
  destruct (backoffBefore_spec (attemptNumber s + 1)) as (_ & Hbs & _).
  assert (Hpre : recorded (trace s ++ backoffBefore (attemptNumber s + 1)
                                   ++ [Dispatched idx]) i = recorded (trace s) i).
  { rewrite !recorded_app, (recorded_none (backoffBefore _)) by exact Hbs.
    unfold recorded. cbn. lia. }
  assert (Hbase : successCountAt (updateService idx markDispatched (gateway s)) i
                  = (fun c => c + recorded (trace s) i) <$> successCountAt gw0 i).
  { rewrite (successCountAt_update idx i 0) by apply markDispatched_successCount.
    rewrite Hs. destruct (successCountAt gw0 i); cbn; [ | done ].
    f_equal. destruct (i =? idx)%nat; lia. }
  assert (Hwin : forall tr,
            recorded tr i = recorded (trace s) i ->
            successCountAt
              (updateService idx (markSuccess (startNow e) (endNow e))
                 (updateService idx markDispatched (gateway s))) i
            = (fun c => c + recorded (tr ++ [Succeeded idx]) i)
                <$> successCountAt gw0 i).
  { intros tr Htr.
    rewrite (successCountAt_update idx i 1) by apply markSuccess_successCount.
    rewrite Hbase, recorded_app, Htr.
    destruct (successCountAt gw0 i); cbn; [ | done ].
    f_equal. rewrite recorded_succeeded. lia. }
  assert (Hlose : forall tr msg,
            recorded tr i = recorded (trace s) i ->
            successCountAt
              (updateService idx (markFailure (startNow e) (endNow e) msg)
                 (updateService idx markDispatched (gateway s))) i
            = (fun c => c + recorded (tr ++ [Failed idx msg]) i)
                <$> successCountAt gw0 i).
  { intros tr msg Htr.
    rewrite (successCountAt_update idx i 0) by apply markFailure_successCount.
    rewrite Hbase, recorded_app, Htr.
    destruct (successCountAt gw0 i); cbn; [ | done ].
    f_equal. rewrite (recorded_none [Failed idx msg]) by reflexivity.
    destruct (i =? idx)%nat; lia. }
  destruct (chunks e) as [|[first gone] rest].
  - destruct (ending e) as [|msg].
    + destruct (aborted s || abortedAtEnd e);
        cbn [gateway trace succeeded attemptNumber started aborted triedIndices].
      * now rewrite Hbase, Hpre.
      * change [Committed idx; Succeeded idx; Metadata idx]
          with ([Committed idx] ++ [Succeeded idx] ++ [Metadata idx]).
        rewrite !app_assoc, (recorded_app _ [Metadata idx]).
        rewrite <- app_assoc.
        rewrite (Hwin ((trace s ++ backoffBefore (attemptNumber s + 1)
                                ++ [Dispatched idx]) ++ [Committed idx])).
        -- rewrite (recorded_none [Metadata idx]) by reflexivity.
           rewrite <- !app_assoc.
           destruct (successCountAt gw0 i); cbn; [ f_equal; lia | done ].
        -- rewrite recorded_app, Hpre, (recorded_none [Committed idx]) by reflexivity.
           lia.
    + cbn [gateway trace caught attemptNumber started aborted triedIndices].
      now apply Hlose.
  - destruct (aborted s || gone); cbn [gateway trace]; [ now rewrite Hbase, Hpre | ].
    destruct (forAwait idx (started s || negb (isEmpty first)) false rest (ending e))
      as [[[frames started1] aborted1] thrown] eqn:Hfa.
    destruct (forAwait_spec _ _ _ _ _ _ _ _ _ Hfa) as (Hframes & _ & _).
    set (frames0 := if isEmpty first then []
                    else [Committed idx; Metadata idx; Chunk idx first]) in *.
    assert (Hall : forallb isFrame (frames0 ++ frames) = true).
    { rewrite forallb_app, Hframes. subst frames0. now destruct (isEmpty first). }
    destruct (frames_quiet _ Hall) as (_ & Hfs).
    assert (Htr : recorded ((trace s ++ backoffBefore (attemptNumber s + 1)
                                     ++ [Dispatched idx]) ++ frames0 ++ frames) i
                  = recorded (trace s) i).
    { rewrite recorded_app, Hpre, (recorded_none _ i Hfs). lia. }
    destruct thrown as [msg|]; [ | destruct started1 ];
      cbn [gateway trace caught succeeded attemptNumber started aborted triedIndices].
    + now apply Hlose.
    + now apply Hwin.
    + now rewrite Hbase, Htr.
Qed.

Lemma iteration_ledger (gw0 : Gateway) (mode : RoutingMode) (e : IterEnv)
    (s : LoopState) :
  SuccessLedger gw0 s -> SuccessLedger gw0 (iteration mode e s).
Proof.
  intros Hs. unfold iteration.
  destruct (getNextService_frame (triedIndices s) mode (selectNow e) (random e)
              (gateway s)) as [Hprobed _].
  destruct (getNextService (triedIndices s) mode (selectNow e) (random e) (gateway s))
    as [choice gw1].
  cbn [snd] in Hprobed.
  assert (Hs1 : forall c tr,
            (forall i, recorded tr i = recorded (trace s) i) ->
            SuccessLedger gw0
              (mkLoop gw1 (triedIndices s) (attemptNumber s) (started s)
                      (aborted s) c tr)).
  { intros c tr Htr i. cbn. rewrite Htr, (probed_successCountAt _ _ i Hprobed).
    apply Hs. }
  assert (Hsel : forall i, recorded (trace s ++ [Selected choice]) i
                          = recorded (trace s) i).
  { intros i. rewrite recorded_app, (recorded_none [Selected choice]) by reflexivity.
    lia. }
  destruct choice as [idx|].
  - pose proof (attempt_ledger gw0 e idx _ (Hs1 false _ Hsel)) as Hatt.
    destruct (exited (attempt e idx _)); [ exact Hatt | ].
    intros i. apply Hatt.
  - destruct (0 <? attemptNumber s).
    + pose proof (someReopened_probed (triedIndices s) (reprobeNow e)
                    (trackedServices gw1) 0) as Hre.
      destruct (someReopened (triedIndices s) (reprobeNow e) 0 (trackedServices gw1))
        as [reopened services'].
      cbn [snd] in Hre.
      assert (Hfinal : forall c ab,
                SuccessLedger gw0
                  (mkLoop (withServices gw1 services') (triedIndices s)
                          (attemptNumber s) (started s) ab c
                          ((trace s ++ [Selected None])
                             ++ [Slept (calculateBackoffDelay (attemptNumber s))]))).
      { intros c ab i. cbn [gateway trace].
        rewrite (probed_successCountAt gw1 (withServices gw1 services') i Hre).
        rewrite recorded_app, (recorded_none [Slept _]) by reflexivity.
        rewrite Z.add_0_r. apply (Hs1 c _ Hsel). }
      destruct reopened; cbn [negb exited]; apply Hfinal.
    + cbn [exited]. apply Hs1, Hsel.
Qed.

Lemma runLoop_ledger (gw0 : Gateway) (mode : RoutingMode) (envs : list IterEnv) :
  forall s, SuccessLedger gw0 s -> SuccessLedger gw0 (runLoop mode envs s).
Proof.
  induction envs as [|e envs IH]; intros s Hs; cbn; [ done | ].
  destruct (finished s); [ done | ].
  apply IH, iteration_ledger, Hs.
Qed.

Lemma initialLoop_ledger (gw : Gateway) : SuccessLedger gw (initialLoop gw).
Proof.
  intros idx. cbn. unfold recorded. cbn.
  destruct (successCountAt gw idx); cbn; [ f_equal; lia | done ].
Qed.

(** C1.  Along the streaming fail-over loop of a request the tried set only
    grows; no position is dispatched to twice; the request records at most
    one success, and the [successCount] of the pool's upstreams moves
    accordingly: every counter ends at its value before the request plus the
    successes the request recorded for that upstream, so it is unchanged or
    one higher, and at most one upstream's counter has changed; and once the
    request has committed ([started] set, the first chunk on its way) no
    further selector call or dispatch follows, whatever the committed stream
    does afterwards. *)
Theorem failover_single_commit :
  forall (mode : RoutingMode) (gw : Gateway) (envs : list IterEnv),
    let final := runLoop mode envs (initialLoop gw) in
    (forall envs1 envs2, envs = envs1 ++ envs2 ->
       triedIndices (runLoop mode envs1 (initialLoop gw)) ⊆ triedIndices final)
    /\ NoDup (dispatched (trace final))
    /\ (forall idx, idx ∈ dispatched (trace final) -> idx ∈ triedIndices final)
    /\ (length (successes (trace final)) <= 1)%nat
    /\ (forall pre e post,
          trace final = pre ++ e :: post -> isCommit e = true ->
          Forall (fun e' => isSelected e' = false /\ isDispatched e' = false) post)
    /\ (forall idx,
          successCountAt (gateway final) idx
          = (fun c => c + recorded (trace final) idx) <$> successCountAt gw idx)
    /\ (forall idx c0 c,
          successCountAt gw idx = Some c0 ->
          successCountAt (gateway final) idx = Some c ->
          c = c0 \/ c = c0 + 1)
    /\ (forall i j,
          successCountAt (gateway final) i <> successCountAt gw i ->
          successCountAt (gateway final) j <> successCountAt gw j ->
          i = j).
Proof.
  intros mode gw envs final.
  destruct (runLoop_invariant mode envs _ (initialLoop_invariant gw))
    as [(Hnd & Hin & Hlen & _ & _ & _ & Hq) _].
  pose proof (runLoop_ledger gw mode envs _ (initialLoop_ledger gw)) as Hledger.
  fold final in Hnd, Hin, Hlen, Hq, Hledger.
  assert (Hone : (exists k, forall i,
                    recorded (trace final) i = if (i =? k)%nat then 1 else 0)
                 \/ forall i, recorded (trace final) i = 0).
  { unfold recorded.
    destruct (successes (trace final)) as [|k [|? ?]]; cbn in Hlen; [ | | lia ].
    - right. reflexivity.
    - left. exists k. intros i. cbn. now destruct (i =? k)%nat. }
  split; [ | split; [ exact Hnd | split; [ exact Hin | split; [ exact Hlen | ] ] ] ].
  - intros envs1 envs2 ->. subst final. rewrite runLoop_app.
    apply runLoop_invariant.
    apply runLoop_invariant, initialLoop_invariant.
  - split; [ | split; [ exact Hledger | split ] ].
    + intros pre e post Htr He. eapply quiet_split; eauto.
    + intros idx c0 c H0 Hc. rewrite Hledger, H0 in Hc. cbn in Hc.
      injection Hc as <-.
      destruct Hone as [[k Hk] | Hzero].
      * rewrite Hk. destruct (idx =? k)%nat; lia.
      * rewrite Hzero. lia.
    + intros i j Hi Hj.
      assert (Hmoved : forall idx,
                successCountAt (gateway final) idx <> successCountAt gw idx ->
                recorded (trace final) idx <> 0).
      { intros idx Hne Hzero. apply Hne. rewrite Hledger, Hzero.
        destruct (successCountAt gw idx); cbn; [ f_equal; lia | done ]. }
      apply Hmoved in Hi, Hj.
      destruct Hone as [[k Hk] | Hzero]; [ | now rewrite Hzero in Hi ].
      rewrite Hk in Hi, Hj.
      destruct (Nat.eqb_spec i k), (Nat.eqb_spec j k); congruence.
Qed.
